(** * lefticus/tools: [simple_stack_vector] and [int_np]

    A shallow embedding of
    [include/lefticus/tools/simple_stack_vector.hpp] and of the division
    and remainder operators of
    [include/lefticus/tools/non_promoting_ints.hpp], followed by the
    properties of the specification that were checked against them.

    Conventions of the embedding:
    - a [std::size_t] is a [Z] in [0, 2 ^ size_bits); the places where the
      source increments, decrements or casts one are written out with
      [to_size_type] and [to_difference_type];
    - the [std::array] member [data_] is a [list] of exactly [Capacity]
      elements; references and iterators into it are slot indices;
    - a member function is a function from the object's state to an
      [outcome]: it returns, throws (the state at the [throw] is kept), or
      has undefined behaviour (an access outside the array). *)

From stdpp Require Import base numbers list strings.

Local Open Scope Z_scope.

(** ** Exceptions and outcomes *)

(** The two standard exceptions the header throws, with their [what()]. *)
Inductive exception : Type :=
  | length_error (what : string)
  | out_of_range (what : string).

(** The specification's names for them. *)
Definition CapacityExceeded (e : exception) : Prop :=
  ∃ what, e = length_error what.

Definition OutOfRange (e : exception) : Prop :=
  ∃ what, e = out_of_range what.

Inductive outcome (S A : Type) : Type :=
  | Returns (a : A) (s : S)
  | Throws (e : exception) (s : S)
  | Undefined.

Arguments Returns {S A} a s.
Arguments Throws {S A} e s.
Arguments Undefined {S A}.

(** ** Requirements on the element type *)

(** [static_assert(std::is_default_constructible_v<Contained>)]:
    [value_init] is [Contained{}]. *)
Class DefaultConstructible (T : Type) := value_init : T.

(** [lhs[idx] != rhs[idx]] in [operator==]. *)
Class InequalityComparable (T : Type) := not_equal : T → T → bool.

(** [value_type{ std::forward<Param>(param)... }] in [emplace_back]. *)
Class ConstructibleFrom (Param T : Type) := construct : Param → T.

(** [*old_end = data_type{}] in [resize] assigns a [std::array] to an
    element: the member is usable only with an element type that converts
    from its own array type, and [from_data_type] is that conversion. *)
Class AssignableFromData (T : Type) := from_data_type : list T → T.

(** ** The container *)

Record simple_stack_vector (Contained : Type) : Type := mk_stack_vector {
  data_ : list Contained;
  size_ : Z
}.

Arguments mk_stack_vector {Contained} data_ size_.
Arguments data_ {Contained} s.
Arguments size_ {Contained} s.

Section container.
Context {Contained : Type}.
Context `{!DefaultConstructible Contained}.

(** Width of [std::size_t] and the template argument [Capacity]. *)
Variable size_bits : Z.
Variable Capacity : Z.

Local Abbreviation vec := (simple_stack_vector Contained).

(** Conversion of an integer to [size_type] (unsigned, modular). *)
Definition to_size_type (z : Z) : Z := z mod 2 ^ size_bits.

(** [static_cast<difference_type>(n)] for a [size_type] [n]. *)
Definition to_difference_type (n : Z) : Z :=
  if bool_decide (n < 2 ^ (size_bits - 1)) then n else n - 2 ^ size_bits.

(** Reading [d[idx]]; [None] outside the array. *)
Definition slot (d : list Contained) (idx : Z) : option Contained :=
  if bool_decide (0 ≤ idx) then d !! Z.to_nat idx else None.

(** The reference [d[idx]], as a slot index; [None] outside the array. *)
Definition subscript (d : list Contained) (idx : Z) : option Z :=
  if bool_decide (0 ≤ idx < Z.of_nat (length d)) then Some idx else None.

(** [d[idx] = v]; [None] outside the array. *)
Definition store (d : list Contained) (idx : Z) (v : Contained)
  : option (list Contained) :=
  if bool_decide (0 ≤ idx < Z.of_nat (length d))
  then Some (<[Z.to_nat idx := v]> d) else None.

(** [data_type{}]: every element value-initialised. *)
Definition data_type_default : list Contained :=
  replicate (Z.to_nat Capacity) value_init.

(** [simple_stack_vector() = default] with [data_{}] and [size_{}]. *)
Definition default_constructed : vec :=
  mk_stack_vector data_type_default 0.

Definition size (s : vec) : Z := size_ s.
Definition capacity : Z := Capacity.
Definition max_size : Z := Capacity.
Definition empty (s : vec) : bool := size_ s =? 0.

(** [data_.begin()] *)
Definition begin_ (s : vec) : option Z := Some 0.

(** [std::next(data_.begin(), static_cast<difference_type>(size_))]:
    defined up to one past the last slot of the array. *)
Definition end_ (s : vec) : option Z :=
  let n := to_difference_type (size_ s) in
  if bool_decide (0 ≤ n ≤ Z.of_nat (length (data_ s))) then Some n else None.

(** [data_.front()] *)
Definition front (s : vec) : outcome vec Z :=
  match subscript (data_ s) 0 with
  | Some r => Returns r s
  | None => Undefined
  end.

(** [data_.back()] *)
Definition back (s : vec) : outcome vec Z :=
  match subscript (data_ s) (Z.of_nat (length (data_ s)) - 1) with
  | Some r => Returns r s
  | None => Undefined
  end.

Definition push_back (value : Contained) (s : vec) : outcome vec Z :=
  if size_ s =? Capacity then
    Throws (length_error "push_back would exceed static capacity") s
  else
    match store (data_ s) (size_ s) value with
    | Some d => Returns (size_ s) (mk_stack_vector d (to_size_type (size_ s + 1)))
    | None => Undefined
    end.

Definition emplace_back {Param : Type} `{!ConstructibleFrom Param Contained}
    (param : Param) (s : vec) : outcome vec Z :=
  if size_ s =? Capacity then
    Throws (length_error "emplace_back would exceed static capacity") s
  else
    match store (data_ s) (size_ s) (construct param) with
    | Some d => Returns (size_ s) (mk_stack_vector d (to_size_type (size_ s + 1)))
    | None => Undefined
    end.

(** [operator[]] *)
Definition operator_index (idx : Z) (s : vec) : outcome vec Z :=
  match subscript (data_ s) idx with
  | Some r => Returns r s
  | None => Undefined
  end.

Definition at_ (idx : Z) (s : vec) : outcome vec Z :=
  if idx >=? size_ s then
    Throws (out_of_range "index past end of stack_vector") s
  else
    match subscript (data_ s) idx with
    | Some r => Returns r s
    | None => Undefined
    end.

Definition clear (s : vec) : outcome vec unit :=
  Returns () (mk_stack_vector (data_ s) 0).

Definition reserve (new_capacity : Z) (s : vec) : outcome vec unit :=
  if new_capacity >? Capacity then
    Throws (length_error "new capacity would exceed max_size for stack_vector") s
  else Returns () s.

(** What the loop of [resize] assigns to each slot it visits. *)
Definition resize_filler `{!AssignableFromData Contained} : Contained :=
  from_data_type data_type_default.

(** The loop of [resize]: [n] is the distance from [old_end] to
    [new_end]. *)
Fixpoint resize_fill `{!AssignableFromData Contained}
    (n : nat) (old_end : Z) (d : list Contained) : option (list Contained) :=
  match n with
  | O => Some d
  | S n' =>
      match store d old_end resize_filler with
      | Some d' => resize_fill n' (old_end + 1) d'
      | None => None
      end
  end.

Definition resize `{!AssignableFromData Contained}
    (new_size : Z) (s : vec) : outcome vec unit :=
  if new_size <=? size_ s then
    Returns () (mk_stack_vector (data_ s) new_size)
  else if new_size >? Capacity then
    Throws (length_error "resize would exceed static capacity") s
  else
    match end_ s, end_ (mk_stack_vector (data_ s) new_size) with
    | Some old_end, Some new_end =>
        match resize_fill (Z.to_nat (new_end - old_end)) old_end (data_ s) with
        | Some d => Returns () (mk_stack_vector d new_size)
        | None => Undefined
        end
    | _, _ => Undefined
    end.

Definition pop_back (s : vec) : outcome vec unit :=
  Returns () (mk_stack_vector (data_ s) (to_size_type (size_ s - 1))).

Definition shrink_to_fit (s : vec) : outcome vec unit := Returns () s.

(** The constructors from a sequence: [push_back] of each value in turn. *)
Fixpoint push_all (values : list Contained) (s : vec) : outcome vec unit :=
  match values with
  | [] => Returns () s
  | value :: rest =>
      match push_back value s with
      | Returns _ s' => push_all rest s'
      | Throws e s' => Throws e s'
      | Undefined => Undefined
      end
  end.

Definition from_values (values : list Contained) : outcome vec unit :=
  push_all values default_constructed.

(** A range-based [for] from [it] over [n] slots, collecting [*it]. *)
Fixpoint traverse (n : nat) (it : Z) (d : list Contained)
  : option (list Contained) :=
  match n with
  | O => Some []
  | S n' =>
      match slot d it, traverse n' (it + 1) d with
      | Some v, Some vs => Some (v :: vs)
      | _, _ => None
      end
  end.

(** [for (const auto &value : s)], from [begin()] to [end()]. *)
Definition iterate (s : vec) : option (list Contained) :=
  match begin_ s, end_ s with
  | Some b, Some e => traverse (Z.to_nat (e - b)) b (data_ s)
  | _, _ => None
  end.

(** The loop of [operator==], with [n] iterations left from [idx]. *)
Fixpoint equal_from `{!InequalityComparable Contained}
    (n : nat) (idx : Z) (lhs rhs : list Contained) : option bool :=
  match n with
  | O => Some true
  | S n' =>
      match slot lhs idx, slot rhs idx with
      | Some a, Some b =>
          if not_equal a b then Some false
          else equal_from n' (idx + 1) lhs rhs
      | _, _ => None
      end
  end.

(** The elements at [idx] compare equal: [lhs[idx] != rhs[idx]] is false. *)
Definition equal_at `{!InequalityComparable Contained}
    (lhs rhs : list Contained) (idx : Z) : Prop :=
  ∃ a b, slot lhs idx = Some a ∧ slot rhs idx = Some b ∧ not_equal a b = false.

(** [operator==]; [None] is undefined behaviour. *)
Definition operator_eq `{!InequalityComparable Contained}
    (lhs rhs : vec) : option bool :=
  if size lhs =? size rhs then
    equal_from (Z.to_nat (size lhs)) 0 (data_ lhs) (data_ rhs)
  else Some false.

(** The live elements: the first [size_] slots. *)
Definition live (s : vec) : list Contained :=
  take (Z.to_nat (size_ s)) (data_ s).

(** The mutating operations as the transitions of a state machine. *)
Inductive operation (Param : Type) : Type :=
  | op_push_back (value : Contained)
  | op_emplace_back (param : Param)
  | op_pop_back
  | op_clear
  | op_resize (new_size : Z)
  | op_reserve (new_capacity : Z)
  | op_shrink_to_fit.

Arguments op_push_back {Param} value.
Arguments op_emplace_back {Param} param.
Arguments op_pop_back {Param}.
Arguments op_clear {Param}.
Arguments op_resize {Param} new_size.
Arguments op_reserve {Param} new_capacity.
Arguments op_shrink_to_fit {Param}.

Definition ignore {A : Type} (r : outcome vec A) : outcome vec unit :=
  match r with
  | Returns _ s => Returns () s
  | Throws e s => Throws e s
  | Undefined => Undefined
  end.

Definition run {Param : Type} `{!ConstructibleFrom Param Contained}
    `{!AssignableFromData Contained}
    (o : operation Param) (s : vec) : outcome vec unit :=
  match o with
  | op_push_back value => ignore (push_back value s)
  | op_emplace_back param => ignore (emplace_back param s)
  | op_pop_back => pop_back s
  | op_clear => clear s
  | op_resize new_size => resize new_size s
  | op_reserve new_capacity => reserve new_capacity s
  | op_shrink_to_fit => shrink_to_fit s
  end.

(** What the types guarantee of a state: the array has [Capacity]
    slots and [size_] is a [size_type]. *)
Definition well_typed (s : vec) : Prop :=
  Z.of_nat (length (data_ s)) = Capacity ∧ 0 ≤ size_ s < 2 ^ size_bits.

(** Invariant I1 of the specification. *)
Definition I1 (s : vec) : Prop := 0 ≤ size_ s ≤ Capacity.

(** The stated precondition of an operation. *)
Definition precondition {Param : Type} (o : operation Param) (s : vec) : Prop :=
  match o with
  | op_pop_back => 0 < size_ s
  | _ => True
  end.

(** The arguments of an operation are [size_type] values. *)
Definition well_typed_op {Param : Type} (o : operation Param) : Prop :=
  match o with
  | op_resize n | op_reserve n => 0 ≤ n < 2 ^ size_bits
  | _ => True
  end.

(** States a default-constructed container reaches through calls that
    return or throw, each made within its precondition. *)
Inductive reachable {Param : Type} `{!ConstructibleFrom Param Contained}
    `{!AssignableFromData Contained} : vec → Prop :=
  | reachable_default : reachable default_constructed
  | reachable_returns o s s' :
      reachable s → well_typed_op o → precondition o s →
      run o s = Returns () s' → reachable s'
  | reachable_throws o s s' e :
      reachable s → well_typed_op o → precondition o s →
      run o s = Throws e s' → reachable s'.

(** Reverse iterators, each as the index of its base: [*it] is the slot
    before the base and [++it] moves the base one slot down. *)

(** [data_.rend()] *)
Definition rend (s : vec) : option Z := Some 0.

(** [std::next(data_.rbegin(), static_cast<difference_type>(Capacity - size_))]:
    the base of [data_.rbegin()] is one past the last slot of the array. *)
Definition rbegin (s : vec) : option Z :=
  let n := to_difference_type (to_size_type (Capacity - size_ s)) in
  if bool_decide (0 ≤ n ≤ Z.of_nat (length (data_ s)))
  then Some (Z.of_nat (length (data_ s)) - n) else None.

(** A loop over [n] reverse-iterator steps from [base], collecting [*it]. *)
Fixpoint traverse_reverse (n : nat) (base : Z) (d : list Contained)
  : option (list Contained) :=
  match n with
  | O => Some []
  | S n' =>
      match slot d (base - 1), traverse_reverse n' (base - 1) d with
      | Some v, Some vs => Some (v :: vs)
      | _, _ => None
      end
  end.

(** The loop from [rbegin()] to [rend()]. *)
Definition iterate_reverse (s : vec) : option (list Contained) :=
  match rbegin s, rend s with
  | Some b, Some e => traverse_reverse (Z.to_nat (b - e)) b (data_ s)
  | _, _ => None
  end.

End container.

Arguments operation Contained Param : clear implicits.
Arguments op_push_back {Contained Param} value.
Arguments op_emplace_back {Contained Param} param.
Arguments op_pop_back {Contained Param}.
Arguments op_clear {Contained Param}.
Arguments op_resize {Contained Param} new_size.
Arguments op_reserve {Contained Param} new_capacity.
Arguments op_shrink_to_fit {Contained Param}.

(** ** The converting constructors *)

Section conversions.
Context {OtherContained Contained : Type}.
Context `{!DefaultConstructible Contained}.
Context `{!ConstructibleFrom OtherContained Contained}.
Variable size_bits : Z.
Variable Capacity : Z.

(** [simple_stack_vector(const std::vector<Type> &values)], and the same
    loop over any sequence: [push_back(Contained{ value })] of each. *)
Definition from_vector (values : list OtherContained)
  : outcome (simple_stack_vector Contained) unit :=
  push_all size_bits Capacity (construct <$> values)
    (default_constructed Capacity).

(** [simple_stack_vector(const simple_stack_vector<OtherContained,
    OtherSize> &other)]: the range-based [for] over [other], with
    [push_back(Contained{ value })] of each element. *)
Definition from_stack_vector (other : simple_stack_vector OtherContained)
  : outcome (simple_stack_vector Contained) unit :=
  match iterate size_bits other with
  | Some values => from_vector values
  | None => Undefined
  end.

End conversions.

(** ** Element types used in the examples *)

(** [int] elements, for values far from the ends of its range. *)
#[export] Instance int_default : DefaultConstructible Z := 0.
#[export] Instance int_not_equal : InequalityComparable Z :=
  λ a b, negb (a =? b).
#[export] Instance int_from_int : ConstructibleFrom Z Z := λ z, z.

(** [std::any], restricted to what the examples store in one: nothing, an
    [int], or a [std::array<std::any, N>].  Its converting assignment
    accepts the array [data_type{}], so [resize] can be instantiated. *)
#[warnings="-register-all"]
Inductive any : Type :=
  | any_empty
  | any_int (z : Z)
  | any_array (elements : list any).

#[export] Instance any_default : DefaultConstructible any := any_empty.
#[export] Instance any_from_data : AssignableFromData any := any_array.
#[export] Instance any_from_int : ConstructibleFrom Z any := any_int.

(** ** [int_np]: the division and remainder operators *)

Module int_np.

(** An integral type, by signedness and width. *)
Record integral : Type := mk_integral { is_signed : bool; bits : Z }.

Definition uint8_t : integral := mk_integral false 8.
Definition uint16_t : integral := mk_integral false 16.
Definition uint32_t : integral := mk_integral false 32.
Definition uint64_t : integral := mk_integral false 64.
Definition int8_t : integral := mk_integral true 8.
Definition int16_t : integral := mk_integral true 16.
Definition int32_t : integral := mk_integral true 32.
Definition int64_t : integral := mk_integral true 64.

(** [int] is 32 bits wide on the platforms that provide the fixed-width
    types above next to a 64-bit [std::size_t]. *)
Definition int_ : integral := int32_t.
Definition unsigned_int : integral := uint32_t.

Definition min_value (T : integral) : Z :=
  if is_signed T then - 2 ^ (bits T - 1) else 0.

Definition max_value (T : integral) : Z :=
  if is_signed T then 2 ^ (bits T - 1) - 1 else 2 ^ bits T - 1.

Definition in_range (T : integral) (z : Z) : Prop :=
  min_value T ≤ z ≤ max_value T.

Definition representable (T : integral) (z : Z) : bool :=
  bool_decide (in_range T z).

(** [static_cast<T>(z)]: the value of [T] congruent to [z] modulo
    [2 ^ bits T]. *)
Definition static_cast (T : integral) (z : Z) : Z :=
  if is_signed T
  then (z + 2 ^ (bits T - 1)) mod 2 ^ bits T - 2 ^ (bits T - 1)
  else z mod 2 ^ bits T.

(** Integral promotion: a type narrower than [int] becomes [int]. *)
Definition promote (T : integral) : integral :=
  if bits T <? bits int_ then int_ else T.

(** The usual arithmetic conversions: the type in which a binary operator
    on operands of types [L] and [R] is evaluated. *)
Definition common_type (L R : integral) : integral :=
  let L' := promote L in
  let R' := promote R in
  if Bool.eqb (is_signed L') (is_signed R') then
    if bits L' <? bits R' then R' else L'
  else
    let u := if is_signed L' then R' else L' in
    let s := if is_signed L' then L' else R' in
    if bits s <=? bits u then u else s.

(** [lhs / rhs] for operands of types [L] and [R]; [None] is undefined
    behaviour: a zero divisor, or a quotient the type cannot hold. *)
Definition divide (L R : integral) (lhs rhs : Z) : option Z :=
  let C := common_type L R in
  let a := static_cast C lhs in
  let b := static_cast C rhs in
  if b =? 0 then None
  else if representable C (a `quot` b) then Some (a `quot` b) else None.

(** [lhs % rhs], undefined wherever [lhs / rhs] is. *)
Definition remainder (L R : integral) (lhs rhs : Z) : option Z :=
  let C := common_type L R in
  let a := static_cast C lhs in
  let b := static_cast C rhs in
  if b =? 0 then None
  else if representable C (a `quot` b) then Some (a `rem` b) else None.

(** [lhs op rhs] for [+], [-] and [*] on operands of types [L] and [R],
    evaluated in their common type: an unsigned result is reduced modulo
    [2 ^ bits]; a signed result the type cannot hold is undefined. *)
Definition arithmetic (op : Z → Z → Z) (L R : integral) (lhs rhs : Z)
  : option Z :=
  let C := common_type L R in
  let r := op (static_cast C lhs) (static_cast C rhs) in
  if is_signed C then
    if representable C r then Some r else None
  else Some (static_cast C r).

(** [~v] for an operand of type [T]: every bit of the promoted operand
    flipped. *)
Definition complement (T : integral) (v : Z) : Z :=
  let P := promote T in
  static_cast P (Z.lnot (static_cast P v)).

(** [lhs op rhs] for [|], [&] and [^], evaluated in the common type. *)
Definition bitwise (op : Z → Z → Z) (L R : integral) (lhs rhs : Z) : Z :=
  let C := common_type L R in
  op (static_cast C lhs) (static_cast C rhs).

(** [lhs << rhs]: evaluated in the promoted type of the left operand,
    reduced modulo [2 ^ bits]; undefined for a negative right operand or
    one that is not below the width of that type. *)
Definition shift_left (L : integral) (lhs rhs : Z) : option Z :=
  let P := promote L in
  if bool_decide (0 ≤ rhs < bits P)
  then Some (static_cast P (Z.shiftl (static_cast P lhs) rhs)) else None.

(** [lhs >> rhs]: an arithmetic shift, undefined as [lhs << rhs] is. *)
Definition shift_right (L : integral) (lhs rhs : Z) : option Z :=
  let P := promote L in
  if bool_decide (0 ≤ rhs < bits P)
  then Some (Z.shiftr (static_cast P lhs) rhs) else None.

(** The widths of the types the header instantiates [int_np] with. *)
Definition fixed_width (T : integral) : Prop :=
  bits T = 8 ∨ bits T = 16 ∨ bits T = 32 ∨ bits T = 64.

(** [int_np<Type>]: the wrapped value. *)
Record int_np (Type_ : integral) : Type := mk_int_np { value : Z }.

Arguments mk_int_np {Type_} value.
Arguments value {Type_} i.

Section operators.
Variable value_type : integral.

Local Abbreviation int_np_t := (int_np value_type).

Definition get (x : int_np_t) : Z := value x.

(** [from(v)] is [int_np{ static_cast<value_type>(v) }]. *)
Definition from (v : Z) : int_np_t := mk_int_np (static_cast value_type v).

(** [operator%(int_np, int_np)] *)
Definition operator_mod (lhs rhs : int_np_t) : option int_np_t :=
  from <$> remainder value_type value_type (value lhs) (value rhs).

(** [operator/(int_np, int_np)] *)
Definition operator_div (lhs rhs : int_np_t) : option int_np_t :=
  from <$> divide value_type value_type (value lhs) (value rhs).

(** [operator/=(std::integral auto rhs)], [rhs] of type [R]:
    [value = static_cast<value_type>(value / rhs)]. *)
Definition operator_div_assign (R : integral) (x : int_np_t) (rhs : Z)
  : option int_np_t :=
  (λ q, mk_int_np (static_cast value_type q)) <$> divide value_type R (value x) rhs.

(** [operator%=(std::integral auto rhs)], [rhs] of type [R]:
    [value = static_cast<value_type>(value / rhs)]. *)
Definition operator_mod_assign (R : integral) (x : int_np_t) (rhs : Z)
  : option int_np_t :=
  (λ q, mk_int_np (static_cast value_type q)) <$> divide value_type R (value x) rhs.

(** [operator/=(int_np rhs)]:
    [value = static_cast<value_type>(value / rhs.value)]. *)
Definition operator_div_assign_np (x rhs : int_np_t) : option int_np_t :=
  (λ q, mk_int_np (static_cast value_type q))
    <$> divide value_type value_type (value x) (value rhs).

(** [operator%=(int_np rhs)]:
    [value = static_cast<value_type>(value / rhs.value)]. *)
Definition operator_mod_assign_np (x rhs : int_np_t) : option int_np_t :=
  (λ q, mk_int_np (static_cast value_type q))
    <$> divide value_type value_type (value x) (value rhs).

(** [operator|(int_np, int_np)] *)
Definition operator_or (lhs rhs : int_np_t) : int_np_t :=
  from (bitwise Z.lor value_type value_type (value lhs) (value rhs)).

(** [operator&(int_np, int_np)] *)
Definition operator_and (lhs rhs : int_np_t) : int_np_t :=
  from (bitwise Z.land value_type value_type (value lhs) (value rhs)).

(** [operator^(int_np, int_np)] *)
Definition operator_xor (lhs rhs : int_np_t) : int_np_t :=
  from (bitwise Z.lxor value_type value_type (value lhs) (value rhs)).

(** [operator&=(int_np rhs)]:
    [value = static_cast<value_type>(value & rhs.value)]. *)
Definition operator_and_assign (x rhs : int_np_t) : int_np_t :=
  mk_int_np
    (static_cast value_type
       (bitwise Z.land value_type value_type (value x) (value rhs))).

(** [operator|=(int_np rhs)] *)
Definition operator_or_assign (x rhs : int_np_t) : int_np_t :=
  mk_int_np
    (static_cast value_type
       (bitwise Z.lor value_type value_type (value x) (value rhs))).

(** [operator^=(int_np rhs)] *)
Definition operator_xor_assign (x rhs : int_np_t) : int_np_t :=
  mk_int_np
    (static_cast value_type
       (bitwise Z.lxor value_type value_type (value x) (value rhs))).

(** [operator*(int_np, int_np)] *)
Definition operator_mul (lhs rhs : int_np_t) : option int_np_t :=
  from <$> arithmetic Z.mul value_type value_type (value lhs) (value rhs).

(** [operator+(int_np, int_np)] *)
Definition operator_add (lhs rhs : int_np_t) : option int_np_t :=
  from <$> arithmetic Z.add value_type value_type (value lhs) (value rhs).

(** [operator-(int_np, int_np)] *)
Definition operator_sub (lhs rhs : int_np_t) : option int_np_t :=
  from <$> arithmetic Z.sub value_type value_type (value lhs) (value rhs).

(** [operator~] *)
Definition operator_not (x : int_np_t) : int_np_t :=
  from (complement value_type (value x)).

(** [operator++()]: [++value], that is [value = value + 1] with the sum
    converted back to [value_type]. *)
Definition pre_increment (x : int_np_t) : option int_np_t :=
  (λ r, mk_int_np (static_cast value_type r))
    <$> arithmetic Z.add value_type int_ (value x) 1.

(** [operator--()] *)
Definition pre_decrement (x : int_np_t) : option int_np_t :=
  (λ r, mk_int_np (static_cast value_type r))
    <$> arithmetic Z.sub value_type int_ (value x) 1.

(** [operator++(int)]: [from(value++)], the result and the object
    afterwards. *)
Definition post_increment (x : int_np_t) : option (int_np_t * int_np_t) :=
  (λ x', (from (value x), x')) <$> pre_increment x.

(** [operator--(int)] *)
Definition post_decrement (x : int_np_t) : option (int_np_t * int_np_t) :=
  (λ x', (from (value x), x')) <$> pre_decrement x.

(** [operator<<(int_np, std::integral auto)] and
    [operator<<(int_np, int_np)], by the value of the right operand. *)
Definition operator_shl (lhs : int_np_t) (rhs : Z) : option int_np_t :=
  from <$> shift_left value_type (value lhs) rhs.

(** [operator>>(int_np, std::integral auto)] and
    [operator>>(int_np, int_np)]. *)
Definition operator_shr (lhs : int_np_t) (rhs : Z) : option int_np_t :=
  from <$> shift_right value_type (value lhs) rhs.

End operators.

End int_np.

(** ** [static_views]: from a computed sequence to an array of its size *)

Module static_views.

(** [oversized_size]: the largest sequence that can be converted. *)
Definition oversized_size : Z := 10 * 1024.

(** [oversized_array<Value>] *)
Record oversized_array (Value : Type) : Type := mk_oversized_array {
  data : list Value;
  size : Z
}.

Arguments mk_oversized_array {Value} data size.
Arguments data {Value} o.
Arguments size {Value} o.

Section conversions.
Context {Value : Type}.
Context `{!DefaultConstructible Value}.

(** [std::copy(first, last, d_first)] for the elements [src] of
    [first, last): each is assigned through [d_first], which then moves
    on; [None] when an assignment falls outside [dst]. *)
Fixpoint copy (src : list Value) (d_first : Z) (dst : list Value)
  : option (list Value) :=
  match src with
  | [] => Some dst
  | v :: rest =>
      match store dst d_first v with
      | Some dst' => copy rest (d_first + 1) dst'
      | None => None
      end
  end.

(** The elements from [begin()] to [end()] of an [oversized_array];
    [None] when [end()] is past the end of [data]. *)
Definition elements (o : oversized_array Value) : option (list Value) :=
  if bool_decide (0 ≤ size o ≤ Z.of_nat (length (data o)))
  then traverse (Z.to_nat (size o)) 0 (data o) else None.

(** [to_oversized_array(str)] *)
Definition to_oversized_array (str : list Value)
  : option (oversized_array Value) :=
  match copy str 0 (replicate (Z.to_nat oversized_size) value_init) with
  | Some d => Some (mk_oversized_array d (Z.of_nat (length str)))
  | None => None
  end.

(** [to_right_sized_array(callable)], given what [callable()] returns:
    the result array has [oversized.size] elements, all of which the copy
    assigns. *)
Definition to_right_sized_array (str : list Value) : option (list Value) :=
  match to_oversized_array str with
  | Some oversized =>
      match elements oversized with
      | Some values =>
          copy values 0 (replicate (Z.to_nat (size oversized)) value_init)
      | None => None
      end
  | None => None
  end.

(** [to_span(callable)] and [to_string_view(callable)]: the view from
    [begin()] to [end()] of the array [make_static] gives a permanent
    address. *)
Definition to_span (str : list Value) : option (list Value) :=
  to_right_sized_array str.

End conversions.

End static_views.

(** * Properties of [simple_stack_vector] *)

Section array_access.
Context {Contained : Type}.

(** ** Array accesses *)

Lemma store_in_range (d : list Contained) idx v :
  0 ≤ idx < Z.of_nat (length d) →
  store d idx v = Some (<[Z.to_nat idx := v]> d).
Proof. intros Hidx. unfold store. by rewrite bool_decide_eq_true_2. Qed.

Lemma store_Some (d d' : list Contained) idx v :
  store d idx v = Some d' →
  0 ≤ idx < Z.of_nat (length d) ∧ d' = <[Z.to_nat idx := v]> d.
Proof.
  unfold store. case_bool_decide; [|done]. intros [= <-]. done.
Qed.

Lemma store_length (d d' : list Contained) idx v :
  store d idx v = Some d' → length d' = length d.
Proof. intros [_ ->]%store_Some. apply length_insert. Qed.

Lemma subscript_in_range (d : list Contained) idx :
  0 ≤ idx < Z.of_nat (length d) → subscript d idx = Some idx.
Proof. intros Hidx. unfold subscript. by rewrite bool_decide_eq_true_2. Qed.

Lemma slot_in_range (d : list Contained) idx :
  0 ≤ idx < Z.of_nat (length d) → is_Some (slot d idx).
Proof.
  intros Hidx. unfold slot. rewrite bool_decide_eq_true_2 by lia.
  apply lookup_lt_is_Some. lia.
Qed.

Lemma slot_insert_eq (d : list Contained) idx v :
  0 ≤ idx < Z.of_nat (length d) →
  slot (<[Z.to_nat idx := v]> d) idx = Some v.
Proof.
  intros Hidx. unfold slot. rewrite bool_decide_eq_true_2 by lia.
  apply list_lookup_insert_eq. lia.
Qed.

Lemma slot_insert_ne (d : list Contained) idx idx' v :
  0 ≤ idx → 0 ≤ idx' → idx ≠ idx' →
  slot (<[Z.to_nat idx := v]> d) idx' = slot d idx'.
Proof.
  intros Hidx Hidx' Hne. unfold slot. case_bool_decide; [|done].
  apply list_lookup_insert_ne. lia.
Qed.

End array_access.

Section container_properties.
Context {Contained : Type}.
Context `{!DefaultConstructible Contained}.
Variable size_bits : Z.
Variable Capacity : Z.

Local Abbreviation vec := (simple_stack_vector Contained).

(** The template argument [Capacity] is a [std::size_t]. *)
Hypothesis Capacity_size_t : 0 ≤ Capacity < 2 ^ size_bits.

Lemma to_size_type_small z : 0 ≤ z < 2 ^ size_bits → to_size_type size_bits z = z.
Proof. intros Hz. unfold to_size_type. by apply Z.mod_small. Qed.

(** ** [push_back] *)

Lemma push_back_full value (s : vec) :
  size_ s = Capacity →
  push_back size_bits Capacity value s
  = Throws (length_error "push_back would exceed static capacity") s.
Proof. intros Hfull. unfold push_back. by rewrite (proj2 (Z.eqb_eq _ _) Hfull). Qed.

Lemma push_back_room value (s : vec) :
  well_typed size_bits Capacity s → size_ s < Capacity →
  push_back size_bits Capacity value s
  = Returns (size_ s)
      (mk_stack_vector (<[Z.to_nat (size_ s) := value]> (data_ s)) (size_ s + 1)).
Proof.
  intros [Hlen Hsize] Hroom. unfold push_back.
  rewrite (proj2 (Z.eqb_neq _ _)) by lia.
  rewrite store_in_range by lia.
  by rewrite to_size_type_small by lia.
Qed.

(** C1. On a full container [push_back] throws [std::length_error] and
    the state at the throw is the state before the call; with room left it
    assigns the value into slot [size_], adds one to [size_], leaves all
    other slots alone, and the reference it returns designates the slot
    that now holds the value. *)
Theorem push_back_spec value (s : vec) :
  well_typed size_bits Capacity s →
  (size_ s = Capacity →
     ∃ e, push_back size_bits Capacity value s = Throws e s ∧ CapacityExceeded e) ∧
  (size_ s < Capacity →
     ∃ s', push_back size_bits Capacity value s = Returns (size_ s) s' ∧
       data_ s' = <[Z.to_nat (size_ s) := value]> (data_ s) ∧
       size_ s' = size_ s + 1 ∧
       slot (data_ s') (size_ s) = Some value).
Proof.
  intros Hty. split.
  - intros Hfull. eexists. split; [by apply push_back_full|]. by eexists.
  - intros Hroom. eexists. split; [by apply push_back_room|].
    destruct Hty as [Hlen Hsize]. simpl. repeat split.
    apply slot_insert_eq. lia.
Qed.

(** ** [at] *)

(** C5. [at(idx)] throws [std::out_of_range] exactly when
    [idx >= size()]; below [size()] it returns the reference to slot
    [idx], which holds an element; the state after the call, thrown or
    returned, is the state before it. *)
Theorem at_spec idx (s : vec) :
  well_typed size_bits Capacity s → I1 Capacity s → 0 ≤ idx < 2 ^ size_bits →
  ((∃ e s', at_ idx s = Throws e s' ∧ OutOfRange e) ↔ size s ≤ idx) ∧
  (idx < size s → at_ idx s = Returns idx s ∧ is_Some (slot (data_ s) idx)) ∧
  (∀ r s', at_ idx s = Returns r s' → s' = s) ∧
  (∀ e s', at_ idx s = Throws e s' → s' = s ∧ OutOfRange e) ∧
  at_ idx s ≠ Undefined.
Proof.
  intros [Hlen Hsize] Hinv Hidx. unfold at_, size, I1 in *.
  rewrite Z.geb_leb. destruct (Z.leb_spec (size_ s) idx) as [Hge|Hlt].
  - split; [|split; [|split; [|split]]]; try done.
    + split; [done|]. intros _. do 2 eexists. split; [done|]. by eexists.
    + lia.
    + intros e s' [= <- <-]. split; [done|]. by eexists.
  - rewrite subscript_in_range by lia.
    split; [|split; [|split; [|split]]]; try done.
    + split; [|lia]. by intros (? & ? & ? & ?).
    + intros _. split; [done|]. apply slot_in_range. lia.
    + by intros r s' [= _ <-].
Qed.

(** ** [front] and [back] *)

Lemma front_first_slot (s : vec) :
  well_typed size_bits Capacity s → 0 < Capacity → front s = Returns 0 s.
Proof.
  intros [Hlen _] Hcap. unfold front. by rewrite subscript_in_range by lia.
Qed.

(** [back] designates the last slot of the array, whatever [size_] is. *)
Lemma back_last_slot (s : vec) :
  well_typed size_bits Capacity s → 0 < Capacity →
  back s = Returns (Capacity - 1) s.
Proof.
  intros [Hlen _] Hcap. unfold back. rewrite subscript_in_range by lia.
  by rewrite Hlen.
Qed.

(** ** [clear] and [pop_back] *)

Lemma pop_back_nonempty (s : vec) :
  well_typed size_bits Capacity s → 0 < size_ s →
  pop_back size_bits s = Returns () (mk_stack_vector (data_ s) (size_ s - 1)).
Proof.
  intros [_ Hsize] Hpos. unfold pop_back. by rewrite to_size_type_small by lia.
Qed.

(** C10. [pop_back] on an empty container returns normally; the
    decrement of [size_] wraps to [2 ^ size_bits - 1], the largest
    [size_type], and the state no longer satisfies [size_ <= Capacity].
    The container object holds [Capacity] elements and the [size_] field,
    so [Capacity] is below the largest [size_type]. *)
Theorem pop_back_empty_wraps (s : vec) :
  0 < size_bits → Capacity < 2 ^ size_bits - 1 → size_ s = 0 →
  ∃ s', pop_back size_bits s = Returns () s' ∧
    data_ s' = data_ s ∧
    size s' = 2 ^ size_bits - 1 ∧
    ¬ I1 Capacity s'.
Proof.
  intros Hbits Hcap Hempty. eexists. split; [done|]. simpl.
  assert (to_size_type size_bits (size_ s - 1) = 2 ^ size_bits - 1) as ->.
  { unfold to_size_type. rewrite Hempty. symmetry.
    apply (Z.mod_unique_pos _ _ (-1)); lia. }
  split; [done|]. split; [done|]. unfold I1. simpl. lia.
Qed.

(** ** Iteration *)

(** [end()] casts [size_] to [difference_type].  The lemmas about it
    assume [Capacity < 2 ^ (size_bits - 1)]: the number of elements of an
    array is at most the largest [difference_type]. *)

Lemma traverse_take (n : nat) (it : Z) (d : list Contained) :
  0 ≤ it → it + Z.of_nat n ≤ Z.of_nat (length d) →
  traverse n it d = Some (take n (drop (Z.to_nat it) d)).
Proof.
  revert it. induction n as [|n IH]; intros it Hit Hend; cbn [traverse].
  { by rewrite take_0. }
  destruct (slot_in_range d it) as [v Hv]; [lia|].
  rewrite Hv, IH by lia.
  unfold slot in Hv. rewrite bool_decide_eq_true_2 in Hv by done.
  rewrite (drop_S _ _ _ Hv). simpl.
  by replace (Z.to_nat (it + 1)) with (S (Z.to_nat it)) by lia.
Qed.

Lemma end_valid (s : vec) :
  well_typed size_bits Capacity s → I1 Capacity s →
  Capacity < 2 ^ (size_bits - 1) →
  end_ size_bits s = Some (size_ s).
Proof.
  intros [Hlen Hsize] Hinv Hcap. unfold I1 in Hinv.
  assert (to_difference_type size_bits (size_ s) = size_ s) as Hcast.
  { unfold to_difference_type. rewrite bool_decide_eq_true_2; [done|lia]. }
  unfold end_. cbv zeta. rewrite Hcast.
  rewrite bool_decide_eq_true_2; [done|lia].
Qed.

Lemma iterate_live (s : vec) :
  well_typed size_bits Capacity s → I1 Capacity s →
  Capacity < 2 ^ (size_bits - 1) →
  iterate size_bits s = Some (live s).
Proof.
  intros Hty Hinv Hcap. unfold iterate, begin_. rewrite end_valid by done.
  destruct Hty as [Hlen Hsize]. unfold I1 in Hinv.
  rewrite traverse_take by lia. unfold live.
  by rewrite Z.sub_0_r.
Qed.

Lemma live_push_back value (s : vec) :
  0 ≤ size_ s < Z.of_nat (length (data_ s)) →
  live (mk_stack_vector (<[Z.to_nat (size_ s) := value]> (data_ s)) (size_ s + 1))
  = live s ++ [value].
Proof.
  intros Hsize. unfold live. simpl.
  replace (Z.to_nat (size_ s + 1)) with (S (Z.to_nat (size_ s))) by lia.
  rewrite (take_S_r _ _ value) by (apply list_lookup_insert_eq; lia).
  by rewrite take_insert_ge by lia.
Qed.

Lemma push_all_room values : ∀ s : vec,
  well_typed size_bits Capacity s → 0 ≤ size_ s →
  size_ s + Z.of_nat (length values) ≤ Capacity →
  ∃ s', push_all size_bits Capacity values s = Returns () s' ∧
    well_typed size_bits Capacity s' ∧
    size_ s' = size_ s + Z.of_nat (length values) ∧
    live s' = live s ++ values.
Proof.
  induction values as [|value rest IH]; intros s Hty Hpos Hroom;
    cbn [push_all]; rewrite ?length_cons, ?length_nil in *.
  { exists s. rewrite Z.add_0_r, app_nil_r. done. }
  rewrite push_back_room by (done || lia).
  destruct Hty as [Hlen Hsize].
  destruct (IH (mk_stack_vector (<[Z.to_nat (size_ s) := value]> (data_ s))
                  (size_ s + 1))) as (s' & Hrun & Hty' & Hsize' & Hlive).
  { split; simpl; [by rewrite length_insert | lia]. }
  { simpl. lia. }
  { simpl. lia. }
  exists s'. split; [done|]. split; [done|]. split; [simpl in Hsize'; lia|].
  rewrite Hlive, live_push_back by lia. by rewrite <- app_assoc.
Qed.

Lemma default_constructed_well_typed :
  well_typed size_bits Capacity (default_constructed Capacity).
Proof.
  split; simpl; [|lia]. unfold data_type_default.
  rewrite length_replicate. lia.
Qed.

(** C6. For every capacity an array can have, pushing at most
    [Capacity] values into a default-constructed container succeeds for
    each of them; afterwards [size()] is their number and iterating from
    [begin()] to [end()] yields exactly them, in the order pushed, and
    none of the stale slots behind them. *)
Theorem push_all_iterate (values : list Contained) :
  Capacity < 2 ^ (size_bits - 1) →
  Z.of_nat (length values) ≤ Capacity →
  ∃ s', from_values size_bits Capacity values = Returns () s' ∧
    size s' = Z.of_nat (length values) ∧
    iterate size_bits s' = Some values.
Proof.
  intros Hcap Hlen. unfold from_values.
  destruct (push_all_room values (default_constructed Capacity))
    as (s' & Hrun & Hty & Hsize & Hlive);
    [apply default_constructed_well_typed | done | simpl; lia |].
  exists s'. simpl in *. split; [done|]. split; [unfold size; lia|].
  rewrite iterate_live; [|done|unfold I1; lia|done].
  by rewrite Hlive.
Qed.

(** ** [resize] *)

Section resize_properties.
Context `{!AssignableFromData Contained}.

Lemma resize_fill_slots (n : nat) : ∀ (old_end : Z) (d : list Contained),
  0 ≤ old_end → old_end + Z.of_nat n ≤ Z.of_nat (length d) →
  ∃ d', resize_fill Capacity n old_end d = Some d' ∧
    length d' = length d ∧
    ∀ i, slot d' i =
      if bool_decide (old_end ≤ i < old_end + Z.of_nat n)
      then Some (resize_filler Capacity) else slot d i.
Proof.
  induction n as [|n IH]; intros old_end d Hpos Hend; cbn [resize_fill].
  { exists d. split; [done|]. split; [done|]. intros i.
    by rewrite bool_decide_eq_false_2 by lia. }
  rewrite store_in_range by lia.
  destruct (IH (old_end + 1) (<[Z.to_nat old_end := resize_filler Capacity]> d))
    as (d' & Hfill & Hlen & Hslots); [lia | rewrite length_insert; lia |].
  exists d'. split; [done|]. split; [by rewrite Hlen, length_insert|].
  intros i. rewrite Hslots.
  destruct (decide (old_end + 1 ≤ i < old_end + 1 + Z.of_nat n)).
  { by rewrite !bool_decide_eq_true_2 by lia. }
  rewrite bool_decide_eq_false_2 by done.
  destruct (decide (i = old_end)) as [->|Hne].
  { rewrite bool_decide_eq_true_2 by lia. apply slot_insert_eq. lia. }
  rewrite bool_decide_eq_false_2 by lia.
  destruct (decide (0 ≤ i)).
  - by apply slot_insert_ne.
  - unfold slot. by rewrite !bool_decide_eq_false_2 by done.
Qed.

Lemma resize_fill_length (n : nat) : ∀ (old_end : Z) (d d' : list Contained),
  resize_fill Capacity n old_end d = Some d' → length d' = length d.
Proof.
  induction n as [|n IH]; intros old_end d d'; cbn [resize_fill].
  { by intros [= <-]. }
  destruct (store d old_end _) as [d1|] eqn:Hstore; [|done].
  intros Hfill%IH. rewrite Hfill. by eapply store_length.
Qed.

Lemma resize_shrink new_size (s : vec) :
  new_size ≤ size_ s →
  resize size_bits Capacity new_size s
  = Returns () (mk_stack_vector (data_ s) new_size).
Proof. intros Hle. unfold resize. by rewrite (proj2 (Z.leb_le _ _) Hle). Qed.

Lemma resize_too_large new_size (s : vec) :
  size_ s < new_size → Capacity < new_size →
  resize size_bits Capacity new_size s
  = Throws (length_error "resize would exceed static capacity") s.
Proof.
  intros Hgt Hcap. unfold resize.
  rewrite (proj2 (Z.leb_gt _ _) Hgt).
  by rewrite (proj2 (Z.gtb_gt _ _)) by lia.
Qed.

(** A growing [resize] within the capacity: every newly exposed slot
    receives [resize_filler], the conversion of a value-initialised array,
    and no other slot changes. *)
Lemma resize_grow new_size (s : vec) :
  well_typed size_bits Capacity s → I1 Capacity s →
  Capacity < 2 ^ (size_bits - 1) →
  size_ s < new_size → new_size ≤ Capacity →
  ∃ d', resize size_bits Capacity new_size s
        = Returns () (mk_stack_vector d' new_size) ∧
    length d' = length (data_ s) ∧
    ∀ i, slot d' i =
      if bool_decide (size_ s ≤ i < new_size)
      then Some (resize_filler Capacity) else slot (data_ s) i.
Proof.
  intros Hty Hinv Hcap Hgt Hle. unfold resize.
  rewrite (proj2 (Z.leb_gt _ _) Hgt).
  destruct (Z.gtb_spec new_size Capacity) as [?|_]; [lia|].
  rewrite end_valid by done.
  rewrite (end_valid (mk_stack_vector (data_ s) new_size));
    [| destruct Hty; split; simpl; lia | unfold I1 in *; simpl; lia | done].
  simpl. destruct Hty as [Hlen Hsize]. unfold I1 in Hinv.
  destruct (resize_fill_slots (Z.to_nat (new_size - size_ s)) (size_ s) (data_ s))
    as (d' & -> & Hlen' & Hslots); [lia | lia |].
  exists d'. split; [done|]. split; [done|]. intros i. rewrite Hslots.
  by replace (size_ s + Z.of_nat (Z.to_nat (new_size - size_ s)))
    with new_size by lia.
Qed.

End resize_properties.

(** ** The state machine *)

Section transitions.
Context {Param : Type}.
Context `{!ConstructibleFrom Param Contained}.
Context `{!AssignableFromData Contained}.

Local Abbreviation op := (operation Contained Param).
Local Abbreviation step := (run size_bits Capacity).

(** The storage keeps its number of slots through every call. *)
Lemma run_data_length (o : op) (s s' : vec) :
  (step o s = Returns () s' ∨ ∃ e, step o s = Throws e s') →
  length (data_ s') = length (data_ s).
Proof.
  destruct o as [value|param| | |new_size|new_capacity| ]; simpl.
  - unfold push_back. destruct (size_ s =? Capacity).
    { intros [[=]|[e [= _ <-]]]. done. }
    destruct (store _ _ _) as [d|] eqn:Hstore; simpl.
    + intros [[= <-]|[e [=]]]. simpl. by eapply store_length.
    + by intros [[=]|[e [=]]].
  - unfold emplace_back. destruct (size_ s =? Capacity).
    { intros [[=]|[e [= _ <-]]]. done. }
    destruct (store _ _ _) as [d|] eqn:Hstore; simpl.
    + intros [[= <-]|[e [=]]]. simpl. by eapply store_length.
    + by intros [[=]|[e [=]]].
  - unfold pop_back. by intros [[= <-]|[e [=]]].
  - unfold clear. by intros [[= <-]|[e [=]]].
  - unfold resize. destruct (new_size <=? size_ s).
    { by intros [[= <-]|[e [=]]]. }
    destruct (new_size >? Capacity).
    { by intros [[=]|[e [= _ <-]]]. }
    destruct (end_ size_bits s) as [old_end|]; [|by intros [[=]|[e [=]]]].
    destruct (end_ size_bits _) as [new_end|]; [|by intros [[=]|[e [=]]]].
    destruct (resize_fill _ _ _ _) as [d|] eqn:Hfill;
      [|by intros [[=]|[e [=]]]].
    intros [[= <-]|[e [=]]]. simpl. by eapply resize_fill_length.
  - unfold reserve. destruct (new_capacity >? Capacity).
    + by intros [[=]|[e [= _ <-]]].
    + by intros [[= <-]|[e [=]]].
  - unfold shrink_to_fit. by intros [[= <-]|[e [=]]].
Qed.

(** C9. [clear] sets [size_] to zero and [pop_back], called with
    [size_ > 0], takes exactly one from it; both leave every slot of the
    storage as it was.  After [clear], [push_back], [pop_back] or [resize],
    returned or thrown, the storage still has [capacity()] slots. *)
Theorem clear_pop_back_frame (s : vec) :
  well_typed size_bits Capacity s →
  clear s = Returns () (mk_stack_vector (data_ s) 0) ∧
  (0 < size_ s →
     pop_back size_bits s
     = Returns () (mk_stack_vector (data_ s) (size_ s - 1))) ∧
  (∀ (o : op) s',
     (o = op_clear ∨ (∃ value, o = op_push_back value) ∨ o = op_pop_back
      ∨ ∃ new_size, o = op_resize new_size) →
     (step o s = Returns () s' ∨ ∃ e, step o s = Throws e s') →
     Z.of_nat (length (data_ s')) = capacity Capacity).
Proof.
  intros Hty. split; [done|]. split; [by apply pop_back_nonempty|].
  intros o s' _ Hstep. rewrite (run_data_length o s s' Hstep).
  by destruct Hty.
Qed.

(** Every call made within its precondition returns or throws, and the
    state it leaves satisfies the invariant again. *)
Lemma run_invariant (o : op) (s : vec) :
  Capacity < 2 ^ (size_bits - 1) →
  well_typed size_bits Capacity s → I1 Capacity s →
  well_typed_op size_bits o → precondition o s →
  ∃ s', (step o s = Returns () s' ∨ ∃ e, step o s = Throws e s') ∧
    well_typed size_bits Capacity s' ∧ I1 Capacity s'.
Proof.
  intros Hcap Hty Hinv Hop Hpre.
  assert (Hty' := Hty). destruct Hty' as [Hlen Hsize].
  unfold I1 in Hinv.
  destruct o as [value|param| | |new_size|new_capacity| ]; simpl in *.
  - destruct (decide (size_ s = Capacity)) as [Hfull|Hroom].
    + exists s. rewrite push_back_full by done. simpl. unfold I1. eauto.
    + eexists. rewrite push_back_room by (done || lia). simpl.
      split; [by left|]. unfold well_typed, I1. simpl.
      rewrite length_insert. lia.
  - unfold emplace_back.
    destruct (Z.eqb_spec (size_ s) Capacity) as [Hfull|Hroom].
    + exists s. simpl. unfold I1. eauto.
    + rewrite store_in_range by lia. rewrite to_size_type_small by lia.
      eexists. simpl. split; [by left|]. unfold well_typed, I1. simpl.
      rewrite length_insert. lia.
  - eexists. rewrite pop_back_nonempty by done.
    split; [by left|]. unfold well_typed, I1. simpl. lia.
  - eexists. unfold clear. split; [by left|].
    unfold well_typed, I1. simpl. lia.
  - destruct (decide (new_size ≤ size_ s)) as [Hshrink|Hgrow].
    { eexists. rewrite resize_shrink by done. split; [by left|].
      unfold well_typed, I1. simpl. lia. }
    destruct (decide (new_size ≤ Capacity)) as [Hfits|Hlarge].
    + destruct (resize_grow new_size s) as (d' & -> & Hlen' & _);
        [done | done | done | lia | done |].
      eexists. split; [by left|]. unfold well_typed, I1. simpl. lia.
    + exists s. rewrite resize_too_large by lia. unfold I1. eauto.
  - unfold reserve. destruct (new_capacity >? Capacity).
    + exists s. unfold I1. eauto.
    + exists s. unfold I1. eauto.
  - exists s. unfold shrink_to_fit, I1. eauto.
Qed.

Lemma reachable_invariant (s : vec) :
  Capacity < 2 ^ (size_bits - 1) →
  reachable size_bits Capacity (Param := Param) s →
  well_typed size_bits Capacity s ∧ I1 Capacity s.
Proof.
  intros Hcap. induction 1 as [|o s s' _ [Hty Hinv] Hop Hpre Hrun
                                 |o s s' e _ [Hty Hinv] Hop Hpre Hrun].
  - split; [apply default_constructed_well_typed|]. unfold I1. simpl. lia.
  - destruct (run_invariant o s) as (s'' & [Hret|[e' Hthrow]] & Hinv');
      try done; congruence.
  - destruct (run_invariant o s) as (s'' & [Hret|[e' Hthrow]] & Hinv');
      try done; congruence.
Qed.

(** Pushing [value_init] [k] times leads to the state of size [k]. *)
Lemma reachable_size (k : nat) :
  Z.of_nat k ≤ Capacity →
  reachable size_bits Capacity (Param := Param)
    (mk_stack_vector (data_type_default Capacity) (Z.of_nat k)).
Proof.
  induction k as [|k IH]; intros Hk.
  { apply reachable_default. }
  eapply (reachable_returns _ _ (op_push_back value_init));
    [apply IH; lia | done | done |].
  simpl. rewrite push_back_room; simpl.
  - unfold data_type_default. rewrite insert_replicate.
    by replace (Z.of_nat k + 1) with (Z.of_nat (S k)) by lia.
  - split; simpl; [|lia]. unfold data_type_default.
    rewrite length_replicate. lia.
  - lia.
Qed.

(** C8. [0 <= size_ <= Capacity] is an invariant of the state machine:
    it holds of the default-constructed container; every operation called
    within its precondition returns or throws and leaves a state that
    satisfies it, so every reachable state does; the empty and the full
    state are both reachable, and being states that satisfy the invariant
    every operation can be called from them again. *)
Theorem size_invariant :
  Capacity < 2 ^ (size_bits - 1) →
  I1 Capacity (default_constructed Capacity) ∧
  (∀ (o : op) (s : vec),
     well_typed size_bits Capacity s → I1 Capacity s →
     well_typed_op size_bits o → precondition o s →
     ∃ s', (step o s = Returns () s' ∨ ∃ e, step o s = Throws e s') ∧
       well_typed size_bits Capacity s' ∧ I1 Capacity s') ∧
  (∀ s, reachable size_bits Capacity (Param := Param) s → I1 Capacity s) ∧
  (∃ s, reachable size_bits Capacity (Param := Param) s ∧ size s = 0) ∧
  (∃ s, reachable size_bits Capacity (Param := Param) s ∧ size s = Capacity).
Proof.
  intros Hcap. split; [unfold I1; simpl; lia|].
  split; [intros o s; by apply run_invariant|].
  split; [intros s Hs; by apply reachable_invariant|].
  split.
  - eexists. split; [apply reachable_default|done].
  - exists (mk_stack_vector (data_type_default Capacity) Capacity). split; [|done].
    replace Capacity with (Z.of_nat (Z.to_nat Capacity)) at 3 by lia.
    apply reachable_size. lia.
Qed.

End transitions.

End container_properties.

(** ** [operator==] *)

Section equality.
Context {Contained : Type}.
Context `{!InequalityComparable Contained}.
Variable size_bits : Z.

Local Abbreviation vec := (simple_stack_vector Contained).

Lemma equal_from_spec (lhs rhs : list Contained) (n : nat) : ∀ idx : Z,
  0 ≤ idx →
  idx + Z.of_nat n ≤ Z.of_nat (length lhs) →
  idx + Z.of_nat n ≤ Z.of_nat (length rhs) →
  ∃ b, equal_from n idx lhs rhs = Some b ∧
    (b = true ↔ ∀ i, idx ≤ i < idx + Z.of_nat n → equal_at lhs rhs i).
Proof.
  induction n as [|n IH]; intros idx Hidx Hl Hr; cbn [equal_from].
  { exists true. split; [done|]. split; [|done]. intros _ i Hi. lia. }
  destruct (slot_in_range lhs idx) as [a Ha]; [lia|].
  destruct (slot_in_range rhs idx) as [b Hb]; [lia|].
  rewrite Ha, Hb. destruct (not_equal a b) eqn:Hne.
  - exists false. split; [done|]. split; [done|]. intros Hall.
    destruct (Hall idx) as (a' & b' & Ha' & Hb' & Heq); [lia|]. congruence.
  - destruct (IH (idx + 1)) as (r & -> & Hr'); try lia.
    exists r. split; [done|]. rewrite Hr'. split.
    + intros Hall i Hi. destruct (decide (i = idx)) as [->|];
        [by exists a, b | apply Hall; lia].
    + intros Hall i Hi. apply Hall. lia.
Qed.

(** C7. On two containers of capacities [M] and [N], [operator==]
    returns true exactly when their sizes are equal and, at every index
    below that size, the two elements compare equal; neither capacity
    enters the condition. *)
Theorem operator_eq_spec (M N : Z) (lhs rhs : vec) :
  well_typed size_bits M lhs → I1 M lhs →
  well_typed size_bits N rhs → I1 N rhs →
  ∃ b, operator_eq lhs rhs = Some b ∧
    (b = true ↔
       size lhs = size rhs ∧
       ∀ idx, 0 ≤ idx < size lhs → equal_at (data_ lhs) (data_ rhs) idx).
Proof.
  intros [Hl _] Hil [Hr _] Hir. unfold operator_eq, size, I1 in *.
  destruct (Z.eqb_spec (size_ lhs) (size_ rhs)) as [Heq|Hne].
  - destruct (equal_from_spec (data_ lhs) (data_ rhs)
                (Z.to_nat (size_ lhs)) 0) as (b & -> & Hb); try lia.
    exists b. split; [done|]. rewrite Hb. split.
    + intros Hall. split; [done|]. intros idx Hidx. apply Hall. lia.
    + intros [_ Hall] i Hi. apply Hall. lia.
  - exists false. split; [done|]. split; [done|]. by intros [? _].
Qed.

End equality.

(** * Properties of [int_np] *)

Import int_np.

Section int_np_properties.
Variable T : integral.
Hypothesis bits_pos : 0 < bits T.

Lemma pow_bits_half (U : integral) :
  0 < bits U → 2 ^ bits U = 2 * 2 ^ (bits U - 1) ∧ 0 < 2 ^ (bits U - 1).
Proof.
  intros Hb. split; [|apply Z.pow_pos_nonneg; lia].
  rewrite <- Z.pow_succ_r by lia. f_equal. lia.
Qed.

Lemma static_cast_in_range (U : integral) z :
  0 < bits U → in_range U z → static_cast U z = z.
Proof.
  intros Hb. destruct (pow_bits_half U Hb) as [Hpow Hhalf].
  unfold in_range, min_value, max_value, static_cast.
  destruct (is_signed U); intros Hz.
  - rewrite Z.mod_small by lia. lia.
  - apply Z.mod_small. lia.
Qed.

Lemma common_type_same : common_type T T = promote T.
Proof.
  unfold common_type. cbv zeta.
  by rewrite Bool.eqb_reflx, Z.ltb_irrefl.
Qed.

Lemma promote_bits_pos : 0 < bits (promote T).
Proof. unfold promote. by destruct (bits T <? bits int_). Qed.

Lemma promote_in_range z : in_range T z → in_range (promote T) z.
Proof.
  unfold promote. destruct (Z.ltb_spec (bits T) (bits int_)) as [Hlt|]; [|done].
  destruct (pow_bits_half T bits_pos) as [Hpow Hhalf].
  assert (2 ^ (bits T - 1) ≤ 2 ^ 30) as Hle.
  { apply Z.pow_le_mono_r; [lia|]. simpl in Hlt. lia. }
  unfold in_range, min_value, max_value. simpl.
  destruct (is_signed T); lia.
Qed.

Lemma quot_abs_le x y : y ≠ 0 → Z.abs (x `quot` y) ≤ Z.abs x.
Proof.
  intros Hy. rewrite <- Z.quot_abs by done.
  rewrite Z.quot_div_nonneg by lia.
  apply Z.div_le_upper_bound; nia.
Qed.

Lemma quot_abs_lt x y : x ≠ 0 → 1 < Z.abs y → Z.abs (x `quot` y) < Z.abs x.
Proof.
  intros Hx Hy. rewrite <- Z.quot_abs by lia.
  apply Z.quot_lt; lia.
Qed.

(** The truncated quotient of two values of [T] is a value of [T], except
    for the least value of a signed type divided by -1. *)
Lemma quot_in_range x y :
  in_range T x → in_range T y → y ≠ 0 →
  ¬ (is_signed T = true ∧ x = min_value T ∧ y = -1) →
  in_range T (x `quot` y).
Proof.
  destruct (pow_bits_half T bits_pos) as [Hpow Hhalf].
  unfold in_range, min_value, max_value.
  destruct (is_signed T); intros Hx Hy Hnz Hedge.
  - pose proof (quot_abs_le x y Hnz) as Hle.
    destruct (decide (y = 1)) as [->|Hy1]; [rewrite Z.quot_1_r; lia|].
    destruct (decide (y = -1)) as [->|Hy2].
    { change (-1) with (- (1)). rewrite Z.quot_opp_r, Z.quot_1_r by done.
      assert (x ≠ - 2 ^ (bits T - 1)) by (intros ->; by apply Hedge). lia. }
    destruct (decide (x = 0)) as [->|Hx0]; [rewrite Z.quot_0_l by done; lia|].
    pose proof (quot_abs_lt x y Hx0). lia.
  - rewrite Z.quot_div_nonneg by lia. split.
    + apply Z.div_pos; lia.
    + assert (x `div` y ≤ x) by (apply Z.div_le_upper_bound; nia). lia.
Qed.

Lemma divide_same_type x y :
  in_range T x → in_range T y → y ≠ 0 →
  ¬ (is_signed T = true ∧ x = min_value T ∧ y = -1) →
  divide T T x y = Some (x `quot` y).
Proof.
  intros Hx Hy Hnz Hedge. unfold divide. cbv zeta.
  rewrite common_type_same.
  rewrite !static_cast_in_range
    by (apply promote_bits_pos || by apply promote_in_range).
  rewrite (proj2 (Z.eqb_neq _ _) Hnz).
  unfold representable. rewrite bool_decide_eq_true_2; [done|].
  apply promote_in_range. by apply quot_in_range.
Qed.

Lemma common_type_bits_pos (R : integral) :
  0 < bits R → 0 < bits (common_type T R).
Proof.
  intros HR. unfold common_type, promote. cbv zeta.
  repeat match goal with |- context [if ?c then _ else _] => destruct c end;
    by simpl.
Qed.

(** Operands whose values and truncated quotient the common type holds
    are divided exactly. *)
Lemma divide_exact (R : integral) x y :
  0 < bits R → y ≠ 0 →
  in_range (common_type T R) x → in_range (common_type T R) y →
  in_range (common_type T R) (x `quot` y) →
  divide T R x y = Some (x `quot` y).
Proof.
  intros HR Hnz Hx Hy Hq. unfold divide. cbv zeta.
  rewrite !static_cast_in_range by (done || by apply common_type_bits_pos).
  rewrite (proj2 (Z.eqb_neq _ _) Hnz).
  unfold representable. by rewrite bool_decide_eq_true_2.
Qed.

(** C4, as amended. Each [operator%=] computes what the [operator/=]
    beside it computes: the C++ quotient of the stored value by the right
    operand, converted to the value type.  With a right operand of the
    wrapper's own value type, through either overload, the value stored is
    the truncated quotient [old_x / y] for every [x] and every non-zero
    [y] except the least value of a signed type divided by -1.  With a
    right operand of another integral type [R] it is that quotient
    whenever the common type of the two operands holds both of them and
    the quotient, and the value type holds the quotient. *)
Theorem mod_assign_stores_quotient (x y : Z) :
  in_range T x → y ≠ 0 →
  (in_range T y →
   ¬ (is_signed T = true ∧ x = min_value T ∧ y = -1) →
   operator_mod_assign_np T (mk_int_np x) (mk_int_np y)
     = Some (mk_int_np (x `quot` y)) ∧
   operator_mod_assign T T (mk_int_np x) y = Some (mk_int_np (x `quot` y))) ∧
  (∀ R : integral,
     0 < bits R → in_range R y →
     in_range (common_type T R) x → in_range (common_type T R) y →
     in_range (common_type T R) (x `quot` y) → in_range T (x `quot` y) →
     operator_mod_assign T R (mk_int_np x) y = Some (mk_int_np (x `quot` y))) ∧
  operator_mod_assign_np T (mk_int_np x) (mk_int_np y)
    = operator_div_assign_np T (mk_int_np x) (mk_int_np y) ∧
  (∀ R : integral,
     operator_mod_assign T R (mk_int_np x) y
     = operator_div_assign T R (mk_int_np x) y).
Proof.
  intros Hx Hnz. split; [|split; [|split; reflexivity]].
  - intros Hy Hedge.
    assert (operator_mod_assign_np T (mk_int_np x) (mk_int_np y)
            = Some (mk_int_np (x `quot` y))) as Hnp.
    { unfold operator_mod_assign_np. simpl.
      rewrite divide_same_type by done. simpl.
      by rewrite static_cast_in_range by (done || by apply quot_in_range). }
    split; [done | exact Hnp].
  - intros R HR _ HCx HCy HCq HTq. unfold operator_mod_assign. simpl.
    rewrite divide_exact by done. simpl.
    by rewrite static_cast_in_range by done.
Qed.

End int_np_properties.

(** The stored value is not always the truncated quotient.  At the least
    value of [int8_t] divided by -1 the quotient, 128, is computed in
    [int] and converted back: the stored value is -128.  With a right
    operand of another type the operands are first brought to a common
    type: [int32_t] -3 by [unsigned] 2 stores 2147483646, not -1. *)
Lemma mod_assign_not_always_quotient :
  (in_range int8_t (-128) ∧ in_range int8_t (-1) ∧
   operator_mod_assign_np int8_t (mk_int_np (-128)) (mk_int_np (-1))
     = Some (mk_int_np (-128)) ∧
   operator_mod_assign_np int8_t (mk_int_np (-128)) (mk_int_np (-1))
     ≠ Some (mk_int_np ((-128) `quot` (-1)))) ∧
  (in_range int32_t (-3) ∧ in_range unsigned_int 2 ∧
   operator_mod_assign int32_t unsigned_int (mk_int_np (-3)) 2
     = Some (mk_int_np 2147483646) ∧
   operator_mod_assign int32_t unsigned_int (mk_int_np (-3)) 2
     ≠ Some (mk_int_np ((-3) `quot` 2))).
Proof.
  split.
  - split; [by vm_compute|]. split; [by vm_compute|].
    split; [by vm_compute|]. vm_compute. by intros [=].
  - split; [by vm_compute|]. split; [by vm_compute|].
    split; [by vm_compute|]. vm_compute. by intros [=].
Qed.

(** For [int32_t] the same division overflows [int] and is undefined. *)
Lemma mod_assign_int32_min_undefined :
  operator_mod_assign_np int32_t (mk_int_np (-2147483648)) (mk_int_np (-1))
    = None.
Proof. by vm_compute. Qed.

(** * Further properties of [simple_stack_vector] *)

Section container_coverage.
Context {Contained : Type}.
Context `{!DefaultConstructible Contained}.
Variable size_bits : Z.
Variable Capacity : Z.

Local Abbreviation vec := (simple_stack_vector Contained).

Hypothesis Capacity_size_t : 0 ≤ Capacity < 2 ^ size_bits.

(** ** [emplace_back] *)

(** X1. [emplace_back] checks the capacity as [push_back] does: on a
    full container it throws [std::length_error] and the state is
    untouched; with room left it assigns the element constructed from the
    parameters into slot [size_], adds one to [size_], returns the
    reference to that slot, and the live elements are the former ones
    followed by the new element. *)
Theorem emplace_back_spec {Param : Type} `{!ConstructibleFrom Param Contained}
    (param : Param) (s : vec) :
  well_typed size_bits Capacity s →
  (size_ s = Capacity →
     ∃ e, emplace_back size_bits Capacity param s = Throws e s ∧
       CapacityExceeded e) ∧
  (size_ s < Capacity →
     ∃ s', emplace_back size_bits Capacity param s = Returns (size_ s) s' ∧
       size_ s' = size_ s + 1 ∧
       slot (data_ s') (size_ s) = Some (construct param) ∧
       live s' = live s ++ [construct param]).
Proof.
  intros [Hlen Hsize]. unfold emplace_back. split.
  - intros ->. rewrite Z.eqb_refl. eexists. split; [done|]. by eexists.
  - intros Hroom. rewrite (proj2 (Z.eqb_neq _ _)) by lia.
    rewrite store_in_range by lia.
    rewrite (to_size_type_small size_bits) by lia.
    eexists. split; [done|]. simpl. split; [done|].
    split; [apply slot_insert_eq; lia|].
    apply (live_push_back 0 _ s). lia.
Qed.

(** ** Reverse iteration *)

Lemma traverse_reverse_take (d : list Contained) (n : nat) : ∀ base : Z,
  Z.of_nat n ≤ base → base ≤ Z.of_nat (length d) →
  traverse_reverse n base d
  = Some (reverse (take n (drop (Z.to_nat base - n) d))).
Proof.
  induction n as [|n IH]; intros base Hn Hbase; cbn [traverse_reverse].
  { by rewrite take_0. }
  destruct (slot_in_range d (base - 1)) as [v Hv]; [lia|].
  rewrite Hv, IH by lia.
  unfold slot in Hv. rewrite bool_decide_eq_true_2 in Hv by lia.
  replace (Z.to_nat (base - 1) - n)%nat with (Z.to_nat base - S n)%nat by lia.
  rewrite (take_S_r _ _ v), reverse_snoc; [done|].
  rewrite lookup_drop, <- Hv. f_equal. lia.
Qed.

Lemma rbegin_valid (s : vec) :
  well_typed size_bits Capacity s → I1 Capacity s →
  Capacity < 2 ^ (size_bits - 1) →
  rbegin size_bits Capacity s = Some (size_ s).
Proof.
  intros [Hlen Hsize] Hinv Hcap. unfold I1 in Hinv.
  unfold rbegin. cbv zeta.
  rewrite (to_size_type_small size_bits) by lia.
  assert (to_difference_type size_bits (Capacity - size_ s) = Capacity - size_ s)
    as ->.
  { unfold to_difference_type. rewrite bool_decide_eq_true_2; [done|lia]. }
  rewrite bool_decide_eq_true_2 by lia. f_equal. lia.
Qed.

(** X2. The loop from [rbegin()] to [rend()] visits exactly the live
    elements, from the last one back to the first: it yields the reverse
    of what the loop from [begin()] to [end()] yields. *)
Theorem iterate_reverse_live (s : vec) :
  well_typed size_bits Capacity s → I1 Capacity s →
  Capacity < 2 ^ (size_bits - 1) →
  iterate_reverse size_bits Capacity s = Some (reverse (live s)) ∧
  iterate_reverse size_bits Capacity s = reverse <$> iterate size_bits s.
Proof.
  intros Hty Hinv Hcap.
  assert (iterate_reverse size_bits Capacity s = Some (reverse (live s))) as Hrev.
  { unfold iterate_reverse, rend. rewrite rbegin_valid by done.
    destruct Hty as [Hlen Hsize]. unfold I1 in Hinv.
    rewrite traverse_reverse_take by lia. unfold live.
    rewrite Z.sub_0_r. by replace (Z.to_nat (size_ s) - Z.to_nat (size_ s))%nat
      with 0%nat by lia. }
  split; [done|]. by rewrite Hrev, (iterate_live size_bits Capacity).
Qed.

(** ** [push_back] and [pop_back] together *)

(** X3. [pop_back] undoes [push_back] as far as the live elements go:
    after the two calls the size and the live elements are those before
    them, while the slot behind them keeps the pushed value. *)
Theorem push_back_pop_back value (s : vec) :
  well_typed size_bits Capacity s → size_ s < Capacity →
  ∃ s1 s2,
    push_back size_bits Capacity value s = Returns (size_ s) s1 ∧
    pop_back size_bits s1 = Returns () s2 ∧
    size_ s2 = size_ s ∧
    live s2 = live s ∧
    slot (data_ s2) (size_ s) = Some value.
Proof.
  intros Hty Hroom. assert (Hty' := Hty). destruct Hty' as [Hlen Hsize].
  do 2 eexists. split; [by apply push_back_room|].
  unfold pop_back. simpl. rewrite (to_size_type_small size_bits) by lia.
  replace (size_ s + 1 - 1) with (size_ s) by lia.
  split; [done|]. simpl. split; [done|].
  split; [|apply slot_insert_eq; lia].
  unfold live. simpl. by rewrite take_insert_ge by lia.
Qed.

(** X4. [pop_back] on a non-empty container removes exactly the last
    live element and touches no slot: the live elements before the call
    are those after it followed by the element of the slot given up. *)
Theorem pop_back_live (s : vec) :
  well_typed size_bits Capacity s → I1 Capacity s → 0 < size_ s →
  ∃ s' v,
    pop_back size_bits s = Returns () s' ∧
    data_ s' = data_ s ∧
    slot (data_ s) (size_ s - 1) = Some v ∧
    live s = live s' ++ [v].
Proof.
  intros Hty Hinv Hpos. assert (Hty' := Hty). destruct Hty' as [Hlen Hsize].
  unfold I1 in Hinv.
  destruct (slot_in_range (data_ s) (size_ s - 1)) as [v Hv]; [lia|].
  do 2 eexists. split; [by eapply pop_back_nonempty|]. simpl.
  split; [done|]. split; [done|].
  unfold live. simpl.
  unfold slot in Hv. rewrite bool_decide_eq_true_2 in Hv by lia.
  rewrite <- (take_S_r _ _ v Hv). f_equal. lia.
Qed.

(** ** Construction from too many values *)

Lemma push_all_overflow values : ∀ s : vec,
  well_typed size_bits Capacity s → I1 Capacity s →
  Capacity < size_ s + Z.of_nat (length values) →
  ∃ e s', push_all size_bits Capacity values s = Throws e s' ∧
    CapacityExceeded e ∧
    well_typed size_bits Capacity s' ∧
    size_ s' = Capacity ∧
    live s' = live s ++ take (Z.to_nat (Capacity - size_ s)) values.
Proof.
  induction values as [|value rest IH]; intros s Hty Hinv Hover;
    cbn [push_all]; rewrite ?length_cons, ?length_nil in *.
  { unfold I1 in Hinv. lia. }
  assert (Hty' := Hty). destruct Hty' as [Hlen Hsize]. unfold I1 in Hinv.
  destruct (decide (size_ s = Capacity)) as [Hfull|Hroom].
  - rewrite push_back_full by done. do 2 eexists. split; [done|].
    split; [by eexists|]. split; [done|]. split; [done|].
    replace (Z.to_nat (Capacity - size_ s)) with 0%nat by lia.
    by rewrite take_0, app_nil_r.
  - rewrite (push_back_room size_bits Capacity) by (done || lia).
    destruct (IH (mk_stack_vector (<[Z.to_nat (size_ s) := value]> (data_ s))
                    (size_ s + 1))) as (e & s' & -> & He & Hty' & Hsize' & Hlive).
    { split; simpl; [by rewrite length_insert | lia]. }
    { unfold I1. simpl. lia. }
    { simpl. lia. }
    exists e, s'. split; [done|]. split; [done|]. split; [done|].
    split; [done|]. rewrite Hlive, (live_push_back 0) by lia. simpl.
    replace (Z.to_nat (Capacity - size_ s))
      with (S (Z.to_nat (Capacity - (size_ s + 1)))) by lia.
    by rewrite <- app_assoc.
Qed.

(** X5. Constructing a container from more than [Capacity] values
    throws [std::length_error]: the first [Capacity] values are pushed and
    the push of the next one throws. *)
Theorem from_values_overflow (values : list Contained) :
  Capacity < Z.of_nat (length values) →
  ∃ e s', from_values size_bits Capacity values = Throws e s' ∧
    CapacityExceeded e ∧
    size s' = Capacity ∧
    live s' = take (Z.to_nat Capacity) values.
Proof.
  intros Hover. unfold from_values.
  destruct (push_all_overflow values (default_constructed Capacity))
    as (e & s' & Hrun & He & _ & Hsize & Hlive).
  { by apply default_constructed_well_typed. }
  { unfold I1. simpl. lia. }
  { simpl. lia. }
  exists e, s'. split; [done|]. split; [done|]. split; [done|].
  rewrite Hlive. simpl. by rewrite Z.sub_0_r.
Qed.

End container_coverage.

(** ** Reuse after [clear] *)

Section container_reuse.
Context {Contained : Type}.
Context `{!DefaultConstructible Contained}.
Variable size_bits : Z.
Variable Capacity : Z.

Local Abbreviation vec := (simple_stack_vector Contained).

Hypothesis Capacity_size_t : 0 ≤ Capacity < 2 ^ size_bits.
Hypothesis Capacity_ptrdiff : Capacity < 2 ^ (size_bits - 1).

(** X6. [clear] makes the whole capacity available again, whatever the
    container held: iterating right after it yields nothing, and pushing
    at most [Capacity] values after it succeeds and leaves exactly those
    values to iterate over. *)
Theorem clear_then_push (values : list Contained) (s : vec) :
  well_typed size_bits Capacity s →
  Z.of_nat (length values) ≤ Capacity →
  ∃ s0 s',
    clear s = Returns () s0 ∧
    empty s0 = true ∧
    iterate size_bits s0 = Some [] ∧
    push_all size_bits Capacity values s0 = Returns () s' ∧
    size s' = Z.of_nat (length values) ∧
    iterate size_bits s' = Some values.
Proof.
  intros [Hlen Hsize] Hfits.
  assert (well_typed size_bits Capacity (mk_stack_vector (data_ s) 0)) as Hty0.
  { split; simpl; [done|lia]. }
  destruct (push_all_room size_bits Capacity Capacity_size_t values
              (mk_stack_vector (data_ s) 0))
    as (s' & Hrun & Hty & Hsize' & Hlive); [done | done | simpl; lia |].
  exists (mk_stack_vector (data_ s) 0), s'. simpl in *.
  split; [done|]. split; [done|].
  split.
  { rewrite (iterate_live size_bits Capacity); [done|done| |done].
    unfold I1. simpl. lia. }
  split; [done|]. split; [unfold size; lia|].
  rewrite (iterate_live size_bits Capacity); [|done| |done].
  - by rewrite Hlive.
  - unfold I1. lia.
Qed.

(** ** Checked and unchecked access *)

(** X7. [operator[]] checks nothing against [size_]: below [size()] it
    returns what [at] returns; from [size()] up to the capacity it still
    returns the reference to the stale slot where [at] throws; at the
    capacity and beyond it is undefined. *)
Theorem operator_index_unchecked idx (s : vec) :
  well_typed size_bits Capacity s → I1 Capacity s → 0 ≤ idx →
  (idx < size s → operator_index idx s = at_ idx s) ∧
  (size s ≤ idx < Capacity →
     operator_index idx s = Returns idx s ∧
     ∃ e, at_ idx s = Throws e s ∧ OutOfRange e) ∧
  (Capacity ≤ idx → operator_index idx s = Undefined).
Proof.
  intros [Hlen Hsize] Hinv Hidx. unfold I1 in Hinv.
  unfold operator_index, at_, size. rewrite Z.geb_leb.
  split; [|split].
  - intros Hlt. by rewrite (proj2 (Z.leb_gt _ _) Hlt).
  - intros [Hge Hlt]. rewrite subscript_in_range by lia.
    split; [done|]. rewrite (proj2 (Z.leb_le _ _) Hge).
    eexists. split; [done|]. by eexists.
  - intros Hge. unfold subscript. by rewrite bool_decide_eq_false_2 by lia.
Qed.

(** X8. What [push_back] stored, [at] reads back: the reference
    [push_back] returns is an index [at] accepts afterwards, the slot it
    designates holds the pushed value, and [at] still returns every index
    it returned before, with the element unchanged. *)
Theorem push_back_then_at value (s : vec) :
  well_typed size_bits Capacity s → I1 Capacity s → size_ s < Capacity →
  ∃ r s',
    push_back size_bits Capacity value s = Returns r s' ∧
    at_ r s' = Returns r s' ∧
    slot (data_ s') r = Some value ∧
    ∀ idx, 0 ≤ idx < size s →
      at_ idx s' = Returns idx s' ∧ slot (data_ s') idx = slot (data_ s) idx.
Proof.
  intros Hty Hinv Hroom. assert (Hty' := Hty). destruct Hty' as [Hlen Hsize].
  unfold I1 in Hinv.
  do 2 eexists. split; [by apply push_back_room|].
  unfold at_. simpl. rewrite !Z.geb_leb.
  rewrite (proj2 (Z.leb_gt _ _)) by lia.
  rewrite subscript_in_range by (rewrite length_insert; lia).
  split; [done|]. split; [apply slot_insert_eq; lia|].
  intros idx Hidx. unfold size in Hidx. rewrite Z.geb_leb.
  rewrite (proj2 (Z.leb_gt _ _)) by lia.
  rewrite subscript_in_range by (rewrite length_insert; lia).
  split; [done|]. apply slot_insert_ne; lia.
Qed.

(** ** [front] and [back] against iteration *)

(** X9. On a non-empty container [front()] designates the first element
    the loop from [begin()] visits.  On a full container [back()]
    designates the last one. *)
Theorem front_back_of_iteration (s : vec) :
  well_typed size_bits Capacity s → I1 Capacity s → 0 < size_ s →
  (∃ r v, front s = Returns r s ∧ slot (data_ s) r = Some v ∧
     head <$> iterate size_bits s = Some (Some v)) ∧
  (size_ s = Capacity →
     ∃ r v, back s = Returns r s ∧ slot (data_ s) r = Some v ∧
       last <$> iterate size_bits s = Some (Some v)).
Proof.
  intros Hty Hinv Hpos. assert (Hty' := Hty). destruct Hty' as [Hlen Hsize].
  rewrite (iterate_live size_bits Capacity) by done.
  unfold I1 in Hinv. simpl. split.
  - destruct (slot_in_range (data_ s) 0) as [v Hv]; [lia|].
    exists 0, v. split; [by apply (front_first_slot size_bits Capacity); [|lia]|].
    split; [done|]. do 2 f_equal. unfold live.
    unfold slot in Hv. simpl in Hv.
    destruct (data_ s) as [|x d]; [done|]. simpl in Hv. injection Hv as ->.
    by replace (Z.to_nat (size_ s)) with (S (Z.to_nat (size_ s - 1))) by lia.
  - intros Hfull.
    destruct (slot_in_range (data_ s) (Capacity - 1)) as [v Hv]; [lia|].
    exists (Capacity - 1), v.
    split; [by apply (back_last_slot size_bits Capacity); [|lia]|].
    split; [done|]. do 2 f_equal. unfold live.
    rewrite take_ge by lia.
    unfold slot in Hv. rewrite bool_decide_eq_true_2 in Hv by lia.
    rewrite last_lookup, <- Hv. f_equal. lia.
Qed.

(** ** [resize] *)

(** X10. [resize] to at most the current size keeps the storage and cuts
    the live elements down to the first [new_size]; [resize] beyond the
    capacity throws [std::length_error] and changes nothing; a growing
    [resize] within the capacity sets the size, keeps the number of slots
    and keeps every element that was live. *)
Theorem resize_spec `{!AssignableFromData Contained} new_size (s : vec) :
  well_typed size_bits Capacity s → I1 Capacity s → 0 ≤ new_size →
  (new_size ≤ size s →
     ∃ s', resize size_bits Capacity new_size s = Returns () s' ∧
       data_ s' = data_ s ∧ size s' = new_size ∧
       live s' = take (Z.to_nat new_size) (live s)) ∧
  (Capacity < new_size →
     ∃ e, resize size_bits Capacity new_size s = Throws e s ∧
       CapacityExceeded e) ∧
  (size s < new_size ≤ Capacity →
     ∃ s', resize size_bits Capacity new_size s = Returns () s' ∧
       size s' = new_size ∧
       length (data_ s') = length (data_ s) ∧
       take (Z.to_nat (size s)) (live s') = live s).
Proof.
  intros Hty Hinv Hnew. assert (Hty' := Hty). destruct Hty' as [Hlen Hsize].
  assert (Hinv' := Hinv). unfold I1 in Hinv'. unfold size.
  split; [|split].
  - intros Hle. rewrite resize_shrink by done. eexists. split; [done|].
    simpl. split; [done|]. split; [done|]. unfold live. simpl.
    rewrite take_take. f_equal. lia.
  - intros Hlarge. rewrite resize_too_large by lia.
    eexists. split; [done|]. by eexists.
  - intros [Hgt Hle].
    destruct (resize_grow size_bits Capacity Capacity_size_t new_size s)
      as (d' & -> & Hlen' & Hslots); try done.
    eexists. split; [done|]. simpl. split; [done|]. split; [done|].
    unfold live. simpl. rewrite take_take.
    replace (Z.to_nat (size_ s) `min` Z.to_nat new_size)%nat
      with (Z.to_nat (size_ s)) by lia.
    apply list_eq. intros i.
    destruct (decide (i < Z.to_nat (size_ s))%nat) as [Hi|Hi].
    + rewrite !lookup_take_lt by done.
      specialize (Hslots (Z.of_nat i)). unfold slot in Hslots.
      rewrite !bool_decide_eq_true_2 in Hslots by lia.
      rewrite bool_decide_eq_false_2 in Hslots by lia.
      by rewrite Nat2Z.id in Hslots.
    + by rewrite !lookup_take_ge by lia.
Qed.

End container_reuse.

(** ** Conversion between capacities and equality *)

Section live_elements.
Context {Contained : Type}.
Variable size_bits : Z.
Variable Capacity : Z.

Lemma live_length (s : simple_stack_vector Contained) :
  well_typed size_bits Capacity s → I1 Capacity s →
  Z.of_nat (length (live s)) = size_ s.
Proof.
  intros [Hlen _] Hinv. unfold I1 in Hinv. unfold live.
  rewrite length_take. lia.
Qed.

(** With a [!=] that is false exactly on equal elements, the loop of
    [operator==] over the first [n] slots compares the two prefixes. *)
Lemma equal_from_prefix `{!InequalityComparable Contained}
    (lhs rhs : list Contained) (n : nat) :
  (∀ a b : Contained, not_equal a b = false ↔ a = b) →
  Z.of_nat n ≤ Z.of_nat (length lhs) → Z.of_nat n ≤ Z.of_nat (length rhs) →
  ∃ b, equal_from n 0 lhs rhs = Some b ∧ (b = true ↔ take n lhs = take n rhs).
Proof.
  intros Hlawful Hl Hr.
  destruct (equal_from_spec lhs rhs n 0) as (b & Hrun & Hb); [lia..|].
  exists b. split; [done|]. rewrite Hb. split.
  - intros Hall. apply list_eq. intros i.
    destruct (decide (i < n)%nat) as [Hi|Hi];
      [|by rewrite !lookup_take_ge by lia].
    rewrite !lookup_take_lt by done.
    destruct (Hall (Z.of_nat i)) as (x & y & Hx & Hy & Hxy); [lia|].
    unfold slot in Hx, Hy.
    rewrite bool_decide_eq_true_2, Nat2Z.id in Hx, Hy by lia.
    apply Hlawful in Hxy. congruence.
  - intros Heq i Hi.
    destruct (slot_in_range lhs i) as [x Hx]; [lia|].
    exists x, x. split; [done|]. split; [|by apply Hlawful].
    unfold slot in *. rewrite bool_decide_eq_true_2 in * by lia.
    rewrite <- (lookup_take_lt rhs n (Z.to_nat i)), <- Heq by lia.
    by rewrite lookup_take_lt by lia.
Qed.

End live_elements.

Section equality_of_live.
Context {Contained : Type}.
Context `{!InequalityComparable Contained}.
Variable size_bits : Z.

(** [!=] on the elements is false exactly on equal elements. *)
Hypothesis not_equal_lawful :
  ∀ a b : Contained, not_equal a b = false ↔ a = b.

(** X11. For an element type whose [!=] is false exactly on equal
    elements, [operator==] on containers of any two capacities holds
    exactly when the two sequences of live elements are the same; stale
    slots and the capacities cannot make two containers differ. *)
Theorem operator_eq_live (M N : Z) (lhs rhs : simple_stack_vector Contained) :
  well_typed size_bits M lhs → I1 M lhs →
  well_typed size_bits N rhs → I1 N rhs →
  ∃ b, operator_eq lhs rhs = Some b ∧ (b = true ↔ live lhs = live rhs).
Proof.
  intros Htl Hil Htr Hir.
  pose proof (live_length size_bits M lhs Htl Hil) as Hll.
  pose proof (live_length size_bits N rhs Htr Hir) as Hlr.
  destruct Htl as [Hl _], Htr as [Hr _]. unfold I1 in *.
  unfold operator_eq, size.
  destruct (Z.eqb_spec (size_ lhs) (size_ rhs)) as [Heq|Hne].
  - destruct (equal_from_prefix (data_ lhs) (data_ rhs) (Z.to_nat (size_ lhs)))
      as (b & -> & Hb); [done | lia | lia |].
    exists b. split; [done|]. rewrite Hb. unfold live. by rewrite Heq.
  - exists false. split; [done|]. split; [done|]. intros Hlive.
    rewrite Hlive in Hll. lia.
Qed.

End equality_of_live.

Section conversion_properties.
Context {OtherContained Contained : Type}.
Context `{!DefaultConstructible Contained}.
Context `{!ConstructibleFrom OtherContained Contained}.
Variable size_bits : Z.
Variable OtherSize : Z.
Variable Capacity : Z.

Hypothesis Capacity_size_t : 0 ≤ Capacity < 2 ^ size_bits.
Hypothesis Capacity_ptrdiff : Capacity < 2 ^ (size_bits - 1).
Hypothesis OtherSize_ptrdiff : OtherSize < 2 ^ (size_bits - 1).

Lemma from_stack_vector_fits (other : simple_stack_vector OtherContained) :
  well_typed size_bits OtherSize other → I1 OtherSize other →
  size other ≤ Capacity →
  ∃ s', from_stack_vector size_bits Capacity other = Returns () s' ∧
    well_typed size_bits Capacity s' ∧
    size_ s' = size_ other ∧
    live s' = construct <$> live other.
Proof.
  intros Hty Hinv Hfits. unfold from_stack_vector, from_vector.
  rewrite (iterate_live size_bits OtherSize) by done.
  pose proof (live_length size_bits OtherSize other Hty Hinv) as Hlen.
  destruct (push_all_room size_bits Capacity Capacity_size_t
              (construct <$> live other) (default_constructed Capacity))
    as (s' & Hrun & Hty' & Hsize & Hlive).
  { by apply default_constructed_well_typed. }
  { done. }
  { rewrite length_fmap. simpl. unfold size in Hfits. lia. }
  exists s'. split; [done|]. split; [done|].
  rewrite length_fmap in Hsize. simpl in Hsize. split; [lia|]. done.
Qed.

(** X12. The converting constructor copies the live elements of the
    source, each converted to the new element type, whenever their number
    is within the new capacity, however large the source's own capacity
    is; when there are more of them than the new capacity it throws
    [std::length_error]. *)
Theorem from_stack_vector_spec (other : simple_stack_vector OtherContained) :
  well_typed size_bits OtherSize other → I1 OtherSize other →
  (size other ≤ Capacity →
     ∃ s', from_stack_vector size_bits Capacity other = Returns () s' ∧
       size s' = size other ∧
       iterate size_bits s' = fmap (M := list) construct <$> iterate size_bits other) ∧
  (Capacity < size other →
     ∃ e s', from_stack_vector size_bits Capacity other = Throws e s' ∧
       CapacityExceeded e).
Proof.
  intros Hty Hinv. split.
  - intros Hfits.
    destruct (from_stack_vector_fits other) as (s' & Hrun & Hty' & Hsize & Hlive);
      try done.
    exists s'. split; [done|]. split; [done|].
    rewrite (iterate_live size_bits Capacity s'), (iterate_live size_bits OtherSize other);
      try done.
    + simpl. by rewrite Hlive.
    + unfold I1 in *. unfold size in Hfits. lia.
  - intros Hover. unfold from_stack_vector, from_vector.
    rewrite (iterate_live size_bits OtherSize) by done.
    pose proof (live_length size_bits OtherSize other Hty Hinv) as Hlen.
    destruct (push_all_overflow size_bits Capacity Capacity_size_t
                (construct <$> live other) (default_constructed Capacity))
      as (e & s' & Hrun & He & _).
    { by apply default_constructed_well_typed. }
    { unfold I1. simpl. lia. }
    { rewrite length_fmap. simpl. unfold size in Hover. lia. }
    by exists e, s'.
Qed.

End conversion_properties.

Section conversion_equality.
Context {Contained : Type}.
Context `{!DefaultConstructible Contained}.
Context `{!InequalityComparable Contained}.
Context `{!ConstructibleFrom Contained Contained}.
Variable size_bits : Z.
Variable OtherSize : Z.
Variable Capacity : Z.

(** X13. Converting a container to another capacity that can hold its
    live elements gives a container that [operator==] finds equal to the
    source, in either order, for an element type that is copied
    unchanged and whose [!=] is false exactly on equal elements. *)
Theorem from_stack_vector_equal (other : simple_stack_vector Contained) :
  0 ≤ Capacity < 2 ^ size_bits →
  Capacity < 2 ^ (size_bits - 1) → OtherSize < 2 ^ (size_bits - 1) →
  (∀ v : Contained, construct v = v) →
  (∀ a b : Contained, not_equal a b = false ↔ a = b) →
  well_typed size_bits OtherSize other → I1 OtherSize other →
  size other ≤ Capacity →
  ∃ s', from_stack_vector size_bits Capacity other = Returns () s' ∧
    operator_eq other s' = Some true ∧
    operator_eq s' other = Some true.
Proof.
  intros Hcap Hptr Hoptr Hcopy Hlawful Hty Hinv Hfits.
  destruct (from_stack_vector_fits size_bits OtherSize Capacity Hcap Hoptr other)
    as (s' & Hrun & Hty' & Hsize & Hlive); try done.
  exists s'. split; [done|].
  assert (live s' = live other) as Heq.
  { rewrite Hlive. apply list_eq. intros i. rewrite list_lookup_fmap.
    destruct (live other !! i); simpl; by rewrite ?Hcopy. }
  destruct Hty as [Hl _], Hty' as [Hl' _]. unfold I1, size in *.
  unfold operator_eq, size. rewrite Hsize, Z.eqb_refl.
  destruct (equal_from_prefix (data_ other) (data_ s') (Z.to_nat (size_ other)))
    as (b & Hb & Hiff); [done | lia | lia |].
  destruct (equal_from_prefix (data_ s') (data_ other) (Z.to_nat (size_ other)))
    as (b' & Hb' & Hiff'); [done | lia | lia |].
  unfold live in Heq. rewrite Hsize in Heq.
  rewrite Hb, Hb'. split; f_equal; [by apply Hiff | by apply Hiff'].
Qed.

End conversion_equality.

(** * Further properties of [int_np] *)

(** Side conditions of rewriting a conversion away. *)
Ltac solve_cast_side :=
  first [ done
        | by apply promote_bits_pos
        | by apply promote_in_range
        | by apply common_type_bits_pos ].

Section int_np_coverage.
Variable T : integral.
Hypothesis bits_pos : 0 < bits T.

Lemma static_cast_range (U : integral) z :
  0 < bits U → in_range U (static_cast U z).
Proof.
  intros Hb. destruct (pow_bits_half U Hb) as [Hpow Hhalf].
  unfold in_range, min_value, max_value, static_cast.
  destruct (is_signed U).
  - pose proof (Z.mod_pos_bound (z + 2 ^ (bits U - 1)) (2 ^ bits U)). lia.
  - pose proof (Z.mod_pos_bound z (2 ^ bits U)). lia.
Qed.

Lemma static_cast_congruent (U : integral) z :
  0 < bits U → (static_cast U z - z) `mod` 2 ^ bits U = 0.
Proof.
  intros Hb. destruct (pow_bits_half U Hb) as [Hpow Hhalf].
  unfold static_cast. destruct (is_signed U).
  - rewrite (Z.mod_eq (z + _)) by lia.
    replace (z + 2 ^ (bits U - 1)
             - 2 ^ bits U * ((z + 2 ^ (bits U - 1)) `div` 2 ^ bits U)
             - 2 ^ (bits U - 1) - z)
      with (- ((z + 2 ^ (bits U - 1)) `div` 2 ^ bits U) * 2 ^ bits U) by lia.
    apply Z.mod_mul. lia.
  - rewrite (Z.mod_eq z) by lia.
    replace (z - 2 ^ bits U * (z `div` 2 ^ bits U) - z)
      with (- (z `div` 2 ^ bits U) * 2 ^ bits U) by lia.
    apply Z.mod_mul. lia.
Qed.

(** X14. [from] brings any integer into the range of the value type
    without changing it modulo [2 ^ bits], and leaves a value of the type
    as it is: [from(x.get())] is [x]. *)
Theorem from_get (v : Z) :
  in_range T (get T (from T v)) ∧
  (get T (from T v) - v) `mod` 2 ^ bits T = 0 ∧
  (in_range T v → from T v = mk_int_np v) ∧
  from T (get T (from T v)) = from T v.
Proof.
  unfold get, from. simpl.
  split; [by apply static_cast_range|].
  split; [by apply static_cast_congruent|].
  split; [by intros ->%static_cast_in_range|].
  f_equal. apply static_cast_in_range; [done|]. by apply static_cast_range.
Qed.

(** ** Division and remainder *)

Lemma remainder_same_type x y :
  in_range T x → in_range T y → y ≠ 0 →
  ¬ (is_signed T = true ∧ x = min_value T ∧ y = -1) →
  remainder T T x y = Some (x `rem` y).
Proof.
  intros Hx Hy Hnz Hedge. unfold remainder. cbv zeta.
  rewrite common_type_same.
  rewrite !static_cast_in_range
    by solve_cast_side.
  rewrite (proj2 (Z.eqb_neq _ _) Hnz).
  unfold representable. rewrite bool_decide_eq_true_2; [done|].
  apply promote_in_range; [done|]. by apply quot_in_range.
Qed.

Lemma rem_in_range x y :
  in_range T x → in_range T y → y ≠ 0 → in_range T (x `rem` y).
Proof.
  destruct (pow_bits_half T bits_pos) as [Hpow Hhalf].
  unfold in_range, min_value, max_value.
  destruct (is_signed T); intros Hx Hy Hnz.
  - pose proof (Z.rem_bound_abs x y Hnz). lia.
  - pose proof (Z.rem_bound_pos x y). lia.
Qed.

(** X15. For every [x] and every non-zero [y] of the value type other
    than the least value of a signed type with -1, [x / y] and [x % y] are
    both defined and satisfy [(x / y) * y + x % y == x]; the remainder is
    smaller in magnitude than [y] and never has the sign opposite to
    [x]'s. *)
Theorem div_mod_identity (x y : Z) :
  in_range T x → in_range T y → y ≠ 0 →
  ¬ (is_signed T = true ∧ x = min_value T ∧ y = -1) →
  ∃ q r,
    operator_div T (mk_int_np x) (mk_int_np y) = Some (mk_int_np q) ∧
    operator_mod T (mk_int_np x) (mk_int_np y) = Some (mk_int_np r) ∧
    q * y + r = x ∧
    Z.abs r < Z.abs y ∧
    0 ≤ r * x.
Proof.
  intros Hx Hy Hnz Hedge. exists (x `quot` y), (x `rem` y).
  unfold operator_div, operator_mod, from. simpl.
  rewrite divide_same_type, remainder_same_type by done. simpl.
  rewrite !static_cast_in_range
    by (done || by apply quot_in_range || by apply rem_in_range).
  split; [done|]. split; [done|].
  split; [pose proof (Z.quot_rem' x y); lia|].
  split; [by apply Z.rem_bound_abs | by apply Z.rem_sign_mul].
Qed.

Lemma divide_None_iff x y :
  in_range T x → in_range T y →
  divide T T x y = None ↔
  y = 0 ∨ (is_signed T = true ∧ bits int_ ≤ bits T ∧ x = min_value T ∧ y = -1).
Proof.
  intros Hx Hy. split.
  - intros Hnone. destruct (decide (y = 0)) as [|Hnz]; [by left|]. right.
    destruct (decide (is_signed T = true ∧ x = min_value T ∧ y = -1))
      as [(Hs & -> & ->)|Hedge];
      [|by rewrite divide_same_type in Hnone].
    split; [done|]. split; [|done].
    destruct (Z.le_gt_cases (bits int_) (bits T)) as [|Hnarrow]; [done|].
    exfalso. revert Hnone. unfold divide. cbv zeta.
    rewrite common_type_same.
    rewrite !static_cast_in_range
      by solve_cast_side.
    change (-1) with (- (1)). rewrite Z.quot_opp_r, Z.quot_1_r by done.
    simpl. unfold representable. rewrite bool_decide_eq_true_2; [done|].
    unfold promote. rewrite (proj2 (Z.ltb_lt _ _) Hnarrow).
    destruct (pow_bits_half T bits_pos) as [Hpow Hhalf].
    assert (2 ^ (bits T - 1) ≤ 2 ^ 30) as Hle.
    { apply Z.pow_le_mono_r; [lia|]. simpl in Hnarrow. lia. }
    unfold in_range, min_value, max_value. rewrite Hs. simpl. lia.
  - intros [->|(Hs & Hwide & -> & ->)]; unfold divide; cbv zeta;
      rewrite common_type_same.
    + rewrite (static_cast_in_range _ 0)
        by solve_cast_side.
      done.
    + rewrite !static_cast_in_range
        by solve_cast_side.
      change (-1) with (- (1)). rewrite Z.quot_opp_r, Z.quot_1_r by done.
      simpl. unfold representable. rewrite bool_decide_eq_false_2; [done|].
      unfold promote. rewrite (proj2 (Z.ltb_ge _ _) Hwide).
      destruct (pow_bits_half T bits_pos) as [Hpow Hhalf].
      unfold in_range, min_value, max_value. rewrite Hs. lia.
Qed.

(** X16. On values of the value type, [x / y] and [x % y] are undefined
    in exactly two cases: [y] is zero, or the value type is signed and at
    least as wide as [int], [x] is its least value and [y] is -1.  For a
    signed type narrower than [int] that last division is defined. *)
Theorem division_undefined_iff (x y : Z) :
  in_range T x → in_range T y →
  (operator_div T (mk_int_np x) (mk_int_np y) = None ↔
   y = 0 ∨
   (is_signed T = true ∧ bits int_ ≤ bits T ∧ x = min_value T ∧ y = -1)) ∧
  (operator_mod T (mk_int_np x) (mk_int_np y) = None ↔
   y = 0 ∨
   (is_signed T = true ∧ bits int_ ≤ bits T ∧ x = min_value T ∧ y = -1)).
Proof.
  intros Hx Hy. unfold operator_div, operator_mod. simpl.
  rewrite !fmap_None. split; [by apply divide_None_iff|].
  rewrite <- (divide_None_iff x y) by done.
  unfold remainder, divide. cbv zeta.
  destruct (_ =? 0); [done|]. by destruct (representable _ _).
Qed.

(** ** Conversions that agree modulo the width *)

Lemma static_cast_eq_mod (U : integral) a b :
  0 < bits U → (a - b) `mod` 2 ^ bits U = 0 → static_cast U a = static_cast U b.
Proof.
  intros Hb Hmod. destruct (pow_bits_half U Hb) as [Hpow Hhalf].
  apply Z.mod_divide in Hmod; [|lia]. destruct Hmod as [q Hq].
  replace a with (b + q * 2 ^ bits U) by lia.
  unfold static_cast. destruct (is_signed U).
  - replace (b + q * 2 ^ bits U + 2 ^ (bits U - 1))
      with (b + 2 ^ (bits U - 1) + q * 2 ^ bits U) by lia.
    by rewrite Z_mod_plus_full.
  - by rewrite Z_mod_plus_full.
Qed.

(** Converting to the promoted type first does not change what the
    conversion to the value type gives. *)
Lemma static_cast_promote z :
  static_cast T (static_cast (promote T) z) = static_cast T z.
Proof.
  apply static_cast_eq_mod; [done|].
  pose proof (static_cast_congruent (promote T) z (promote_bits_pos T bits_pos))
    as Hcong.
  unfold promote in *. destruct (Z.ltb_spec (bits T) (bits int_)) as [Hlt|_];
    [|done].
  simpl in Hcong, Hlt. apply Z.mod_divide in Hcong; [|lia].
  destruct Hcong as [q Hq]. rewrite Hq.
  replace (2 ^ 32) with (2 ^ (32 - bits T) * 2 ^ bits T)
    by (rewrite <- Z.pow_add_r by lia; f_equal; lia).
  rewrite Z.mul_assoc. apply Z.mod_mul.
  apply Z.pow_nonzero; lia.
Qed.

Lemma static_cast_idemp z : static_cast T (static_cast T z) = static_cast T z.
Proof. apply static_cast_in_range; [done|]. by apply static_cast_range. Qed.

(** ** Addition, subtraction and multiplication *)

Lemma arithmetic_narrow op x y :
  bits T < bits int_ → in_range T x → in_range T y →
  arithmetic op T T x y
  = if representable int_ (op x y) then Some (op x y) else None.
Proof.
  intros Hnarrow Hx Hy. unfold arithmetic. cbv zeta.
  rewrite common_type_same.
  rewrite !static_cast_in_range by solve_cast_side.
  unfold promote. by rewrite (proj2 (Z.ltb_lt _ _) Hnarrow).
Qed.

Lemma arithmetic_wide op x y :
  bits int_ ≤ bits T → in_range T x → in_range T y →
  arithmetic op T T x y
  = if is_signed T
    then if representable T (op x y) then Some (op x y) else None
    else Some (static_cast T (op x y)).
Proof.
  intros Hwide Hx Hy. unfold arithmetic. cbv zeta.
  rewrite common_type_same.
  rewrite !static_cast_in_range by solve_cast_side.
  unfold promote. by rewrite (proj2 (Z.ltb_ge _ _) Hwide).
Qed.

Lemma int_range_of_narrow z :
  bits T < bits int_ - 1 →
  - 2 * 2 ^ bits T < z < 2 * 2 ^ bits T → in_range int_ z.
Proof.
  intros Hnarrow Hz.
  assert (2 ^ bits T ≤ 2 ^ 30) as Hle.
  { apply Z.pow_le_mono_r; [lia|]. simpl in Hnarrow. lia. }
  unfold in_range, min_value, max_value. simpl. lia.
Qed.

Lemma in_range_abs z : in_range T z → - 2 ^ bits T < z < 2 ^ bits T.
Proof.
  destruct (pow_bits_half T bits_pos) as [Hpow Hhalf].
  unfold in_range, min_value, max_value. destruct (is_signed T); lia.
Qed.

(** X17. [x + y] and [x - y] on an unsigned value type, or on one at
    least two bits narrower than [int], are always defined and are the
    sum and the difference reduced into the value type.  On a signed value
    type at least as wide as [int] they are the exact sum and difference
    when the type holds them and undefined otherwise. *)
Theorem add_sub_spec (x y : Z) :
  in_range T x → in_range T y →
  (((is_signed T = false ∧ bits int_ ≤ bits T) ∨ bits T < bits int_ - 1) →
   operator_add T (mk_int_np x) (mk_int_np y) = Some (from T (x + y)) ∧
   operator_sub T (mk_int_np x) (mk_int_np y) = Some (from T (x - y))) ∧
  (is_signed T = true → bits int_ ≤ bits T →
   operator_add T (mk_int_np x) (mk_int_np y)
   = (if representable T (x + y) then Some (mk_int_np (x + y)) else None) ∧
   operator_sub T (mk_int_np x) (mk_int_np y)
   = (if representable T (x - y) then Some (mk_int_np (x - y)) else None)).
Proof.
  intros Hx Hy. unfold operator_add, operator_sub, from. simpl.
  pose proof (in_range_abs x Hx). pose proof (in_range_abs y Hy).
  split.
  - intros [[Hu Hwide]|Hnarrow].
    + rewrite !arithmetic_wide, Hu by done. simpl.
      by rewrite !static_cast_idemp.
    + rewrite !arithmetic_narrow by (done || (simpl in *; lia)).
      unfold representable.
      rewrite !bool_decide_eq_true_2
        by (apply int_range_of_narrow; simpl in *; lia).
      done.
  - intros Hs Hwide. rewrite !arithmetic_wide, Hs by done.
    unfold representable. split; case_bool_decide; simpl; try done;
      by rewrite static_cast_in_range.
Qed.

(** X18. On a value type narrower than [int] the product is computed in
    [int]: [x * y] is the product reduced into the value type when [int]
    holds the product and undefined when it does not.  [int] holds every
    product of a value type less than half as wide. *)
Theorem mul_narrow_spec (x y : Z) :
  in_range T x → in_range T y → bits T < bits int_ →
  operator_mul T (mk_int_np x) (mk_int_np y)
  = (if representable int_ (x * y) then Some (from T (x * y)) else None) ∧
  (2 * bits T < bits int_ → in_range int_ (x * y)).
Proof.
  intros Hx Hy Hnarrow. unfold operator_mul. simpl.
  rewrite arithmetic_narrow by done. split.
  - by destruct (representable int_ (x * y)).
  - intros Hhalf.
    pose proof (in_range_abs x Hx). pose proof (in_range_abs y Hy).
    assert (2 ^ bits T * 2 ^ bits T ≤ 2 ^ 30) as Hle.
    { rewrite <- Z.pow_add_r by lia. apply Z.pow_le_mono_r; [lia|].
      simpl in Hhalf. lia. }
    assert (0 < 2 ^ bits T) by (apply Z.pow_pos_nonneg; lia).
    unfold in_range, min_value, max_value. simpl. nia.
Qed.

(** ** Increment and decrement *)

Lemma common_type_int : common_type T int_ = promote T.
Proof.
  unfold common_type, promote. cbv zeta. simpl.
  destruct (Z.ltb_spec (bits T) 32) as [Hlt|Hge]; simpl; [done|].
  destruct (is_signed T) eqn:Hs; simpl.
  - by rewrite (proj2 (Z.ltb_ge _ _) Hge).
  - by rewrite (proj2 (Z.leb_le _ _) Hge).
Qed.

Lemma static_cast_above_max : static_cast T (max_value T + 1) = min_value T.
Proof.
  destruct (pow_bits_half T bits_pos) as [Hpow Hhalf].
  unfold static_cast, max_value, min_value. destruct (is_signed T).
  - replace (2 ^ (bits T - 1) - 1 + 1 + 2 ^ (bits T - 1)) with (2 ^ bits T) by lia.
    rewrite Z.mod_same by lia. lia.
  - replace (2 ^ bits T - 1 + 1) with (2 ^ bits T) by lia.
    apply Z.mod_same. lia.
Qed.

Lemma static_cast_below_min : static_cast T (min_value T - 1) = max_value T.
Proof.
  destruct (pow_bits_half T bits_pos) as [Hpow Hhalf].
  unfold static_cast, max_value, min_value. destruct (is_signed T).
  - replace (- 2 ^ (bits T - 1) - 1 + 2 ^ (bits T - 1)) with (-1) by lia.
    rewrite <- (Z.mod_unique_pos (-1) (2 ^ bits T) (-1) (2 ^ bits T - 1)); lia.
  - symmetry. apply (Z.mod_unique_pos _ _ (-1)); lia.
Qed.

Lemma one_in_promoted_range : in_range (promote T) 1.
Proof.
  unfold promote. destruct (Z.ltb_spec (bits T) (bits int_)) as [|Hge];
    [by vm_compute|].
  simpl in Hge.
  assert (2 ^ 31 ≤ 2 ^ (bits T - 1)) by (apply Z.pow_le_mono_r; lia).
  assert (2 ^ 32 ≤ 2 ^ bits T) by (apply Z.pow_le_mono_r; lia).
  unfold in_range, min_value, max_value. destruct (is_signed T); lia.
Qed.

Lemma step_narrow op x :
  bits T < bits int_ - 1 → in_range T x → op x 1 = x + 1 ∨ op x 1 = x - 1 →
  arithmetic op T int_ x 1 = Some (op x 1).
Proof.
  intros Hnarrow Hx Hop. unfold arithmetic. cbv zeta.
  rewrite common_type_int.
  rewrite !static_cast_in_range
    by (solve_cast_side || apply one_in_promoted_range).
  unfold promote. simpl in Hnarrow.
  rewrite (proj2 (Z.ltb_lt _ _)) by (simpl; lia). simpl.
  unfold representable. rewrite bool_decide_eq_true_2; [done|].
  pose proof (in_range_abs x Hx).
  apply int_range_of_narrow; [simpl; lia|].
  assert (0 < 2 ^ bits T) by (apply Z.pow_pos_nonneg; lia). lia.
Qed.

Lemma step_wide op x :
  bits int_ ≤ bits T → in_range T x →
  arithmetic op T int_ x 1
  = if is_signed T
    then if representable T (op x 1) then Some (op x 1) else None
    else Some (static_cast T (op x 1)).
Proof.
  intros Hwide Hx. unfold arithmetic. cbv zeta.
  rewrite common_type_int.
  rewrite !static_cast_in_range
    by (solve_cast_side || apply one_in_promoted_range).
  unfold promote. by rewrite (proj2 (Z.ltb_ge _ _) Hwide).
Qed.

(** X19. [++x] below the greatest value of the value type stores
    [x + 1], and [--x] above the least value stores [x - 1].  At the
    greatest value [++x] wraps to the least value, and at the least value
    [--x] wraps to the greatest, except on a signed value type at least as
    wide as [int], where both are undefined.  [x++] and [x--] leave the
    object as [++x] and [--x] do and return the value it held. *)
Theorem increment_decrement_spec (x : Z) :
  in_range T x →
  bits T < bits int_ - 1 ∨ bits int_ ≤ bits T →
  ((x < max_value T → pre_increment T (mk_int_np x) = Some (mk_int_np (x + 1))) ∧
   (min_value T < x → pre_decrement T (mk_int_np x) = Some (mk_int_np (x - 1))) ∧
   (x = max_value T →
      pre_increment T (mk_int_np x)
      = if is_signed T && (bits int_ <=? bits T) then None
        else Some (mk_int_np (min_value T))) ∧
   (x = min_value T →
      pre_decrement T (mk_int_np x)
      = if is_signed T && (bits int_ <=? bits T) then None
        else Some (mk_int_np (max_value T)))) ∧
  post_increment T (mk_int_np x)
    = pair (mk_int_np x) <$> pre_increment T (mk_int_np x) ∧
  post_decrement T (mk_int_np x)
    = pair (mk_int_np x) <$> pre_decrement T (mk_int_np x).
Proof.
  intros Hx Hwidth.
  assert (from T x = mk_int_np x) as Hold.
  { unfold from. by rewrite static_cast_in_range. }
  split; [|unfold post_increment, post_decrement; cbn [value]; by rewrite Hold].
  unfold pre_increment, pre_decrement. cbn [value].
  assert (Hx' := Hx). unfold in_range in Hx'.
  destruct Hwidth as [Hnarrow|Hwide].
  - rewrite !step_narrow by (done || by (left + right)). cbn [fmap option_fmap option_map].
    rewrite (proj2 (Z.leb_gt _ _)) by lia.
    rewrite andb_false_r.
    split; [|split; [|split]].
    + intros Hlt. by rewrite static_cast_in_range by (done || unfold in_range; lia).
    + intros Hgt. by rewrite static_cast_in_range by (done || unfold in_range; lia).
    + intros ->. by rewrite static_cast_above_max.
    + intros ->. by rewrite static_cast_below_min.
  - rewrite !step_wide by done. rewrite (proj2 (Z.leb_le _ _) Hwide).
    rewrite andb_true_r. unfold representable.
    destruct (is_signed T); simpl.
    + split; [|split; [|split]].
      * intros Hlt. rewrite bool_decide_eq_true_2 by (unfold in_range; lia).
        simpl. by rewrite static_cast_in_range by (done || unfold in_range; lia).
      * intros Hgt. rewrite bool_decide_eq_true_2 by (unfold in_range; lia).
        simpl. by rewrite static_cast_in_range by (done || unfold in_range; lia).
      * intros ->. by rewrite bool_decide_eq_false_2 by (unfold in_range; lia).
      * intros ->. by rewrite bool_decide_eq_false_2 by (unfold in_range; lia).
    + rewrite !static_cast_idemp. split; [|split; [|split]].
      * intros Hlt. by rewrite static_cast_in_range by (done || unfold in_range; lia).
      * intros Hgt. by rewrite static_cast_in_range by (done || unfold in_range; lia).
      * intros ->. by rewrite static_cast_above_max.
      * intros ->. by rewrite static_cast_below_min.
Qed.

(** ** Complement *)

Lemma static_cast_lnot x :
  in_range T x → static_cast T (Z.lnot x) = min_value T + max_value T - x.
Proof.
  destruct (pow_bits_half T bits_pos) as [Hpow Hhalf].
  unfold Z.lnot, in_range, static_cast, min_value, max_value.
  destruct (is_signed T); intros Hx.
  - rewrite Z.mod_small by lia. lia.
  - symmetry. apply (Z.mod_unique_pos _ _ (-1)); lia.
Qed.

(** X20. [~x] stores the value that mirrors [x] within the range of the
    value type, [min + max - x] (that is [max - x] on an unsigned type and
    [-x - 1] on a signed one), and [~~x] is [x]. *)
Theorem operator_not_spec (x : Z) :
  in_range T x →
  operator_not T (mk_int_np x) = mk_int_np (min_value T + max_value T - x) ∧
  operator_not T (operator_not T (mk_int_np x)) = mk_int_np x.
Proof.
  intros Hx.
  assert (∀ z, in_range T z →
            operator_not T (mk_int_np z)
            = mk_int_np (min_value T + max_value T - z)) as Hnot.
  { intros z Hz. unfold operator_not, from, complement. cbv zeta. simpl.
    rewrite (static_cast_in_range (promote T) z) by solve_cast_side.
    by rewrite static_cast_promote, static_cast_lnot. }
  split; [by apply Hnot|]. rewrite (Hnot x Hx), Hnot.
  - f_equal. lia.
  - unfold in_range in *. lia.
Qed.

(** ** Shifts *)

(** X21. The shifts are carried out on the promoted value: [x << k] and
    [x >> k] are defined exactly for [0 <= k] below the width of the
    promoted value type, which for a type narrower than [int] is the width
    of [int].  When defined, [x << k] is [x * 2 ^ k] reduced into the
    value type and [x >> k] is [x / 2 ^ k] rounded down. *)
Theorem shift_spec (x k : Z) :
  in_range T x →
  (0 ≤ k < bits (promote T) →
     operator_shl T (mk_int_np x) k = Some (from T (x * 2 ^ k)) ∧
     operator_shr T (mk_int_np x) k = Some (mk_int_np (x `div` 2 ^ k))) ∧
  (k < 0 ∨ bits (promote T) ≤ k →
     operator_shl T (mk_int_np x) k = None ∧
     operator_shr T (mk_int_np x) k = None).
Proof.
  intros Hx. unfold operator_shl, operator_shr, shift_left, shift_right.
  cbv zeta. simpl. split.
  - intros Hk. rewrite !bool_decide_eq_true_2 by done. simpl.
    rewrite !static_cast_in_range with (U := promote T) (z := x)
      by solve_cast_side.
    rewrite Z.shiftl_mul_pow2, Z.shiftr_div_pow2 by lia.
    unfold from. rewrite static_cast_promote. split; [done|].
    do 2 f_equal. apply static_cast_in_range; [done|].
    assert (0 < 2 ^ k) by (apply Z.pow_pos_nonneg; lia).
    assert (min_value T ≤ 0 ≤ max_value T) as Hzero.
    { destruct (pow_bits_half T bits_pos) as [Hpow Hhalf].
      unfold min_value, max_value. destruct (is_signed T); lia. }
    unfold in_range in *.
    destruct (Z.le_gt_cases 0 x).
    + assert (0 ≤ x `div` 2 ^ k) by (apply Z.div_pos; lia).
      assert (x `div` 2 ^ k ≤ x) by (apply Z.div_le_upper_bound; nia).
      lia.
    + assert (x `div` 2 ^ k < 0) by (apply Z.div_lt_upper_bound; lia).
      assert (x ≤ x `div` 2 ^ k) by (apply Z.div_le_lower_bound; nia).
      lia.
  - intros Hk. by rewrite !bool_decide_eq_false_2 by lia.
Qed.

End int_np_coverage.

(** ** Bitwise operators *)

Section bitwise_properties.
Variable T : integral.
Hypothesis bits_pos : 0 < bits T.

Lemma below_pow2_log2 n r m :
  0 ≤ r → Z.log2 r ≤ m → m < n → r < 2 ^ n.
Proof.
  intros Hr Hlog Hm. destruct (decide (r = 0)) as [->|Hnz].
  - apply Z.pow_pos_nonneg; [lia|]. pose proof (Z.log2_nonneg 0). lia.
  - apply Z.log2_lt_pow2; lia.
Qed.

Lemma nonneg_closure n a b :
  0 ≤ a < 2 ^ n → 0 ≤ b < 2 ^ n →
  0 ≤ Z.lor a b < 2 ^ n ∧ 0 ≤ Z.land a b < 2 ^ n ∧
  0 ≤ Z.lxor a b < 2 ^ n ∧ 0 ≤ Z.ldiff a b < 2 ^ n.
Proof.
  intros Ha Hb.
  destruct (decide (a = 0)) as [->|Hanz].
  { rewrite Z.lor_0_l, Z.land_0_l, Z.lxor_0_l, Z.ldiff_0_l. lia. }
  destruct (decide (b = 0)) as [->|Hbnz].
  { rewrite Z.lor_0_r, Z.land_0_r, Z.lxor_0_r, Z.ldiff_0_r. lia. }
  assert (Z.log2 a < n) as Hla by (apply Z.log2_lt_pow2; lia).
  assert (Z.log2 b < n) as Hlb by (apply Z.log2_lt_pow2; lia).
  assert (0 ≤ Z.lor a b) by (apply Z.lor_nonneg; lia).
  assert (0 ≤ Z.land a b) by (apply Z.land_nonneg; lia).
  assert (0 ≤ Z.lxor a b) by (apply Z.lxor_nonneg; lia).
  assert (0 ≤ Z.ldiff a b) by (apply Z.ldiff_nonneg; lia).
  pose proof (Z.log2_lor a b) as Hlor.
  pose proof (Z.log2_land a b) as Hland.
  pose proof (Z.log2_lxor a b) as Hlxor.
  pose proof (Z.log2_lor (Z.ldiff a b) (Z.land a b)) as Hdiff.
  rewrite Z.lor_ldiff_and in Hdiff.
  split; [split; [done|]; apply (below_pow2_log2 _ _ (Z.log2 a `max` Z.log2 b)); lia|].
  split; [split; [done|]; apply (below_pow2_log2 _ _ (Z.log2 a `min` Z.log2 b)); lia|].
  split; [split; [done|]; apply (below_pow2_log2 _ _ (Z.log2 a `max` Z.log2 b)); lia|].
  split; [done|]. apply (below_pow2_log2 _ _ (Z.log2 a)); lia.
Qed.

Lemma lnot_opp x : Z.lnot x = - x - 1.
Proof. unfold Z.lnot. lia. Qed.

Lemma signed_closure n x y :
  - 2 ^ n ≤ x < 2 ^ n → - 2 ^ n ≤ y < 2 ^ n →
  - 2 ^ n ≤ Z.lor x y < 2 ^ n ∧ - 2 ^ n ≤ Z.land x y < 2 ^ n ∧
  - 2 ^ n ≤ Z.lxor x y < 2 ^ n.
Proof.
  intros Hx Hy.
  pose proof (lnot_opp x) as Hnx. pose proof (lnot_opp y) as Hny.
  destruct (Z.le_gt_cases 0 x) as [Hxs|Hxs], (Z.le_gt_cases 0 y) as [Hys|Hys].
  - destruct (nonneg_closure n x y) as (? & ? & ? & _); lia.
  - destruct (nonneg_closure n x (Z.lnot y)) as (_ & _ & Hxor & Hdiff);
      [lia..|].
    destruct (nonneg_closure n (Z.lnot y) x) as (_ & _ & _ & Hdiff');
      [lia..|].
    pose proof (Z.lnot_ldiff (Z.lnot y) x) as Hor.
    rewrite Z.lnot_involutive, Z.lor_comm in Hor.
    pose proof (Z.ldiff_land x (Z.lnot y)) as Hand.
    rewrite Z.lnot_involutive in Hand.
    pose proof (Z.lnot_lxor_r x (Z.lnot y)) as Hxor'.
    rewrite Z.lnot_involutive in Hxor'.
    rewrite <- Hor, <- Hand, <- Hxor'.
    rewrite (lnot_opp (Z.ldiff _ _)), (lnot_opp (Z.lxor _ _)). lia.
  - destruct (nonneg_closure n (Z.lnot x) y) as (_ & _ & Hxor & Hdiff);
      [lia..|].
    destruct (nonneg_closure n y (Z.lnot x)) as (_ & _ & _ & Hdiff');
      [lia..|].
    pose proof (Z.lnot_ldiff (Z.lnot x) y) as Hor.
    rewrite Z.lnot_involutive in Hor.
    pose proof (Z.ldiff_land y (Z.lnot x)) as Hand.
    rewrite Z.lnot_involutive, Z.land_comm in Hand.
    pose proof (Z.lnot_lxor_l (Z.lnot x) y) as Hxor'.
    rewrite Z.lnot_involutive in Hxor'.
    rewrite <- Hor, <- Hand, <- Hxor'.
    rewrite (lnot_opp (Z.ldiff _ _)), (lnot_opp (Z.lxor _ _)). lia.
  - destruct (nonneg_closure n (Z.lnot x) (Z.lnot y)) as (Hor & Hand & Hxor & _);
      [lia..|].
    pose proof (Z.lnot_land (Z.lnot x) (Z.lnot y)) as Hor'.
    pose proof (Z.lnot_lor (Z.lnot x) (Z.lnot y)) as Hand'.
    rewrite !Z.lnot_involutive in Hor', Hand'.
    rewrite <- Hor', <- Hand', <- (Z.lxor_lnot_lnot x y).
    rewrite (lnot_opp (Z.land _ _)), (lnot_opp (Z.lor _ _)). lia.
Qed.

Lemma bitwise_in_range x y :
  in_range T x → in_range T y →
  in_range T (Z.lor x y) ∧ in_range T (Z.land x y) ∧ in_range T (Z.lxor x y).
Proof.
  destruct (pow_bits_half T bits_pos) as [Hpow Hhalf].
  unfold in_range, min_value, max_value.
  destruct (is_signed T); intros Hx Hy.
  - destruct (signed_closure (bits T - 1) x y) as (? & ? & ?); lia.
  - destruct (nonneg_closure (bits T) x y) as (? & ? & ? & _); lia.
Qed.

(** X24. On two values of the value type, [x | y], [x & y] and [x ^ y]
    are the bitwise or, and, and exclusive or of the two values in two's
    complement, which the value type always holds, so nothing is reduced;
    [|=], [&=] and [^=] store the same values. *)
Theorem bitwise_spec (x y : Z) :
  in_range T x → in_range T y →
  (operator_or T (mk_int_np x) (mk_int_np y) = mk_int_np (Z.lor x y) ∧
   operator_and T (mk_int_np x) (mk_int_np y) = mk_int_np (Z.land x y) ∧
   operator_xor T (mk_int_np x) (mk_int_np y) = mk_int_np (Z.lxor x y)) ∧
  (in_range T (Z.lor x y) ∧ in_range T (Z.land x y) ∧
   in_range T (Z.lxor x y)) ∧
  (operator_or_assign T (mk_int_np x) (mk_int_np y)
     = operator_or T (mk_int_np x) (mk_int_np y) ∧
   operator_and_assign T (mk_int_np x) (mk_int_np y)
     = operator_and T (mk_int_np x) (mk_int_np y) ∧
   operator_xor_assign T (mk_int_np x) (mk_int_np y)
     = operator_xor T (mk_int_np x) (mk_int_np y)).
Proof.
  intros Hx Hy.
  destruct (bitwise_in_range x y Hx Hy) as (Hor & Hand & Hxor).
  split; [|split; [done|by repeat split]].
  unfold operator_or, operator_and, operator_xor, from, bitwise.
  cbv zeta. cbn [value]. rewrite common_type_same.
  rewrite !(static_cast_in_range (promote T)) by solve_cast_side.
  by rewrite !static_cast_in_range by done.
Qed.

End bitwise_properties.

(** * Properties of [static_views] *)

Section static_views_properties.
Context {Value : Type}.
Context `{!DefaultConstructible Value}.

Lemma copy_fits (src : list Value) : ∀ (d_first : Z) (dst : list Value),
  0 ≤ d_first →
  d_first + Z.of_nat (length src) ≤ Z.of_nat (length dst) →
  static_views.copy src d_first dst
  = Some (take (Z.to_nat d_first) dst ++ src
          ++ drop (Z.to_nat d_first + length src) dst).
Proof.
  induction src as [|v rest IH]; intros d_first dst Hpos Hfits;
    cbn [static_views.copy]; rewrite ?length_cons, ?length_nil in *.
  { simpl. by rewrite Nat.add_0_r, take_drop. }
  rewrite store_in_range by lia.
  rewrite IH by (rewrite ?length_insert; lia). f_equal.
  replace (Z.to_nat (d_first + 1)) with (S (Z.to_nat d_first)) by lia.
  rewrite (take_S_r _ _ v) by (apply list_lookup_insert_eq; lia).
  rewrite take_insert_ge by lia.
  rewrite drop_insert_lt by lia.
  replace (Z.to_nat d_first + S (length rest))%nat
    with (S (Z.to_nat d_first) + length rest)%nat by lia.
  by rewrite <- app_assoc.
Qed.

Lemma copy_overflow (src : list Value) : ∀ (d_first : Z) (dst : list Value),
  0 ≤ d_first → d_first ≤ Z.of_nat (length dst) →
  Z.of_nat (length dst) < d_first + Z.of_nat (length src) →
  static_views.copy src d_first dst = None.
Proof.
  induction src as [|v rest IH]; intros d_first dst Hpos Hle Hover;
    cbn [static_views.copy]; rewrite ?length_cons, ?length_nil in *.
  { lia. }
  unfold store. case_bool_decide as Hin; [|done].
  apply IH; rewrite ?length_insert; lia.
Qed.

Lemma oversized_elements (str : list Value) :
  Z.of_nat (length str) ≤ static_views.oversized_size →
  ∃ o, static_views.to_oversized_array str = Some o ∧
    static_views.size o = Z.of_nat (length str) ∧
    Z.of_nat (length (static_views.data o)) = static_views.oversized_size ∧
    static_views.elements o = Some str.
Proof.
  intros Hfits. unfold static_views.to_oversized_array.
  rewrite copy_fits by (rewrite ?length_replicate; lia).
  change (Z.to_nat 0) with 0%nat. rewrite take_0, app_nil_l, Nat.add_0_l.
  eexists. split; [done|]. cbn [static_views.size static_views.data].
  split; [done|].
  assert (length (str ++ drop (length str)
            (replicate (Z.to_nat static_views.oversized_size) value_init))
          = Z.to_nat static_views.oversized_size) as Hlen.
  { rewrite length_app, length_drop, length_replicate. lia. }
  split; [rewrite Hlen; by vm_compute|].
  unfold static_views.elements. cbn [static_views.size static_views.data].
  rewrite bool_decide_eq_true_2 by (rewrite Hlen; lia).
  rewrite (traverse_take 0) by (rewrite ?Hlen; lia).
  change (Z.to_nat 0) with 0%nat. rewrite drop_0, Nat2Z.id.
  by rewrite take_app_length.
Qed.

(** X22. [to_oversized_array] keeps a sequence of at most
    [oversized_size] elements in the leading slots of its 10240-element
    array and records their number, so that the range from [begin()] to
    [end()] is the sequence; a longer sequence is copied past the end of
    the array. *)
Theorem to_oversized_array_spec (str : list Value) :
  (Z.of_nat (length str) ≤ static_views.oversized_size →
     ∃ o, static_views.to_oversized_array str = Some o ∧
       static_views.size o = Z.of_nat (length str) ∧
       Z.of_nat (length (static_views.data o)) = static_views.oversized_size ∧
       static_views.elements o = Some str) ∧
  (static_views.oversized_size < Z.of_nat (length str) →
     static_views.to_oversized_array str = None).
Proof.
  split; [apply oversized_elements|].
  intros Hover. unfold static_views.to_oversized_array.
  rewrite copy_overflow; [done|lia| |]; rewrite length_replicate;
    unfold static_views.oversized_size in *; lia.
Qed.

(** X23. [to_right_sized_array], and with it [to_span] and
    [to_string_view], give back exactly the elements the callable
    produced, in an array of exactly their number, for every sequence of
    at most [oversized_size] elements; for a longer one the conversion is
    undefined. *)
Theorem to_right_sized_array_spec (str : list Value) :
  (Z.of_nat (length str) ≤ static_views.oversized_size →
     static_views.to_right_sized_array str = Some str ∧
     static_views.to_span str = Some str) ∧
  (static_views.oversized_size < Z.of_nat (length str) →
     static_views.to_right_sized_array str = None ∧
     static_views.to_span str = None).
Proof.
  unfold static_views.to_span, static_views.to_right_sized_array. split.
  - intros Hfits.
    destruct (oversized_elements str Hfits) as (o & -> & Hsize & _ & ->).
    rewrite copy_fits by (rewrite ?length_replicate; lia).
    change (Z.to_nat 0) with 0%nat.
    rewrite take_0, app_nil_l, Nat.add_0_l, Hsize, Nat2Z.id.
    rewrite drop_ge by (by rewrite length_replicate).
    by rewrite app_nil_r.
  - intros Hover. unfold static_views.to_oversized_array.
    rewrite copy_overflow; [done|lia| |]; rewrite length_replicate;
      unfold static_views.oversized_size in *; lia.
Qed.

End static_views_properties.

(** * The operations on concrete containers *)

(** The scenario of the specification on a capacity-3 container of
    [int]: three pushes succeed, the fourth throws and changes nothing,
    [pop_back] leaves 10, 20 to iterate over, and [push_back(99)] then
    gives 10, 20, 99. *)
Example scenario_capacity_3 :
  ∃ s3 s2 s3' : simple_stack_vector Z,
    from_values 64 3 [10; 20; 30] = Returns () s3 ∧ size s3 = 3 ∧
    (∃ e, push_back 64 3 40 s3 = Throws e s3 ∧ CapacityExceeded e) ∧
    pop_back 64 s3 = Returns () s2 ∧ size s2 = 2 ∧
    iterate 64 s2 = Some [10; 20] ∧
    push_back 64 3 99 s2 = Returns 2 s3' ∧
    iterate 64 s3' = Some [10; 20; 99].
Proof.
  do 3 eexists.
  split; [vm_compute; reflexivity|]. split; [reflexivity|].
  split; [eexists; split; [vm_compute; reflexivity | by eexists]|].
  split; [vm_compute; reflexivity|]. split; [reflexivity|].
  split; [vm_compute; reflexivity|].
  split; [vm_compute; reflexivity|]. vm_compute. reflexivity.
Qed.

(** [x %= y] against [x % y] for [int_np<std::int32_t>] 100 and 7: the
    former stores 14, the latter yields 2. *)
Example mod_assign_against_operator_mod :
  operator_mod_assign_np int32_t (mk_int_np 100) (mk_int_np 7)
    = Some (mk_int_np 14) ∧
  operator_mod int32_t (mk_int_np 100) (mk_int_np 7) = Some (mk_int_np 2).
Proof. split; by vm_compute. Qed.

(** ** [back] on a container that is not full *)

(** C3, on [simple_stack_vector<int, 3>] after [push_back(10)]: the only
    live element is slot 0, which [front] designates; [back] designates
    slot 2, the last slot of the array, a stale slot holding 0. *)
Theorem back_of_partly_filled :
  ∃ s : simple_stack_vector Z,
    from_values 64 3 [10] = Returns () s ∧
    size s = 1 ∧
    front s = Returns 0 s ∧
    slot (data_ s) 0 = Some 10 ∧
    slot (data_ s) (size s - 1) = Some 10 ∧
    back s = Returns 2 s ∧
    slot (data_ s) 2 = Some 0.
Proof. eexists. by vm_compute. Qed.

(** ** [resize] that grows *)

(** C2, on [simple_stack_vector<std::any, 4>]: [resize(5)] throws and
    changes nothing; [resize(2)] on the default-constructed container sets
    the size to 2, and the two exposed slots hold a [std::any] that
    contains an array of four empty ones, not the empty [std::any{}]. *)
Theorem resize_growth_stores_array :
  let s0 : simple_stack_vector any := default_constructed 4 in
  (∃ e, resize 64 4 5 s0 = Throws e s0 ∧ CapacityExceeded e) ∧
  ∃ s, resize 64 4 2 s0 = Returns () s ∧
    size s = 2 ∧
    slot (data_ s) 0 = Some (any_array (replicate 4 any_empty)) ∧
    slot (data_ s) 1 = Some (any_array (replicate 4 any_empty)) ∧
    slot (data_ s) 0 ≠ Some value_init ∧
    slot (data_ s) 1 ≠ Some value_init.
Proof.
  split.
  - eexists. split; [by vm_compute | by eexists].
  - eexists. split; [by vm_compute|]. by vm_compute.
Qed.

(** ** The theorems at concrete containers *)

(** [push_back(30)] on a capacity-3 container holding 10, 20. *)
Lemma push_back_spec_witness :
  let s : simple_stack_vector Z := mk_stack_vector [10; 20; 0] 2 in
  0 ≤ 3 < 2 ^ 64 ∧
  well_typed 64 3 s ∧
  ((size_ s = 3 →
      ∃ e, push_back 64 3 30 s = Throws e s ∧ CapacityExceeded e) ∧
   (size_ s < 3 →
      ∃ s', push_back 64 3 30 s = Returns (size_ s) s' ∧
        data_ s' = <[Z.to_nat (size_ s) := 30]> (data_ s) ∧
        size_ s' = size_ s + 1 ∧
        slot (data_ s') (size_ s) = Some 30)).
Proof.
  intros s. split; [lia|]. split; [by vm_compute|].
  apply (push_back_spec 64 3); [lia | by vm_compute].
Defined.

(** [at(1)] on a capacity-3 container holding 10, 20. *)
Lemma at_spec_witness :
  let s : simple_stack_vector Z := mk_stack_vector [10; 20; 0] 2 in
  well_typed 64 3 s ∧ I1 3 s ∧ 0 ≤ 1 < 2 ^ 64 ∧
  (((∃ e s', at_ 1 s = Throws e s' ∧ OutOfRange e) ↔ size s ≤ 1) ∧
   (1 < size s → at_ 1 s = Returns 1 s ∧ is_Some (slot (data_ s) 1)) ∧
   (∀ r s', at_ 1 s = Returns r s' → s' = s) ∧
   (∀ e s', at_ 1 s = Throws e s' → s' = s ∧ OutOfRange e) ∧
   at_ 1 s ≠ Undefined).
Proof.
  intros s. split; [by vm_compute|]. split; [by vm_compute|]. split; [lia|].
  apply (at_spec 64 3); [by vm_compute | by vm_compute | lia].
Defined.

(** Three pushes into a capacity-3 container. *)
Lemma push_all_iterate_witness :
  0 ≤ 3 < 2 ^ 64 ∧ 3 < 2 ^ (64 - 1) ∧
  Z.of_nat (length [10; 20; 30]) ≤ 3 ∧
  ∃ s', from_values 64 3 [10; 20; 30] = Returns () s' ∧
    size s' = Z.of_nat (length [10; 20; 30]) ∧
    iterate 64 s' = Some [10; 20; 30].
Proof.
  split; [lia|]. split; [lia|]. split; [by vm_compute|].
  apply (push_all_iterate 64 3); [lia | lia | by vm_compute].
Defined.

(** The values 1, 2, 3 in a container of capacity 5 and in one of
    capacity 8. *)
Lemma operator_eq_spec_witness :
  let lhs : simple_stack_vector Z := mk_stack_vector [1; 2; 3; 0; 0] 3 in
  let rhs : simple_stack_vector Z := mk_stack_vector [1; 2; 3; 0; 0; 0; 0; 0] 3 in
  well_typed 64 5 lhs ∧ I1 5 lhs ∧ well_typed 64 8 rhs ∧ I1 8 rhs ∧
  ∃ b, operator_eq lhs rhs = Some b ∧
    (b = true ↔
       size lhs = size rhs ∧
       ∀ idx, 0 ≤ idx < size lhs → equal_at (data_ lhs) (data_ rhs) idx).
Proof.
  intros lhs rhs.
  split; [by vm_compute|]. split; [by vm_compute|].
  split; [by vm_compute|]. split; [by vm_compute|].
  apply (operator_eq_spec 64 5 8); by vm_compute.
Defined.

(** The state machine of [simple_stack_vector<std::any, 4>]. *)
Lemma size_invariant_witness :
  0 ≤ 4 < 2 ^ 64 ∧ 4 < 2 ^ (64 - 1) ∧
  (I1 4 (default_constructed (Contained := any) 4) ∧
   (∀ (o : operation any Z) (s : simple_stack_vector any),
      well_typed 64 4 s → I1 4 s →
      well_typed_op 64 o → precondition o s →
      ∃ s', (run 64 4 o s = Returns () s' ∨ ∃ e, run 64 4 o s = Throws e s') ∧
        well_typed 64 4 s' ∧ I1 4 s') ∧
   (∀ s : simple_stack_vector any,
      reachable 64 4 (Param := Z) s → I1 4 s) ∧
   (∃ s : simple_stack_vector any,
      reachable 64 4 (Param := Z) s ∧ size s = 0) ∧
   (∃ s : simple_stack_vector any,
      reachable 64 4 (Param := Z) s ∧ size s = 4)).
Proof.
  split; [lia|]. split; [lia|].
  apply (size_invariant 64 4); lia.
Defined.

(** [clear] and [pop_back] on a capacity-3 container holding two
    elements. *)
Lemma clear_pop_back_frame_witness :
  let s : simple_stack_vector any :=
    mk_stack_vector [any_int 10; any_int 20; any_empty] 2 in
  well_typed 64 3 s ∧
  (clear s = Returns () (mk_stack_vector (data_ s) 0) ∧
   (0 < size_ s →
      pop_back 64 s = Returns () (mk_stack_vector (data_ s) (size_ s - 1))) ∧
   (∀ (o : operation any Z) s',
      (o = op_clear ∨ (∃ value, o = op_push_back value) ∨ o = op_pop_back
       ∨ ∃ new_size, o = op_resize new_size) →
      (run 64 3 o s = Returns () s' ∨ ∃ e, run 64 3 o s = Throws e s') →
      Z.of_nat (length (data_ s')) = capacity 3)).
Proof.
  intros s. split; [by vm_compute|].
  apply (clear_pop_back_frame 64 3). by vm_compute.
Defined.

(** [pop_back] on the default-constructed capacity-3 container, with a
    64-bit [std::size_t]. *)
Lemma pop_back_empty_wraps_witness :
  let s : simple_stack_vector Z := default_constructed 3 in
  0 < 64 ∧ 3 < 2 ^ 64 - 1 ∧ size_ s = 0 ∧
  ∃ s', pop_back 64 s = Returns () s' ∧
    data_ s' = data_ s ∧
    size s' = 2 ^ 64 - 1 ∧
    ¬ I1 3 s'.
Proof.
  intros s. split; [lia|]. split; [lia|]. split; [reflexivity|].
  apply (pop_back_empty_wraps 64 3); [lia | lia | reflexivity].
Defined.

(** [x %= y] for [int_np<std::int8_t>] 100 and 7. *)
Lemma mod_assign_stores_quotient_witness :
  0 < bits int8_t ∧ in_range int8_t 100 ∧ 7 ≠ 0 ∧
  ((in_range int8_t 7 →
    ¬ (is_signed int8_t = true ∧ 100 = min_value int8_t ∧ 7 = -1) →
    operator_mod_assign_np int8_t (mk_int_np 100) (mk_int_np 7)
      = Some (mk_int_np (100 `quot` 7)) ∧
    operator_mod_assign int8_t int8_t (mk_int_np 100) 7
      = Some (mk_int_np (100 `quot` 7))) ∧
   (∀ R : integral,
      0 < bits R → in_range R 7 →
      in_range (common_type int8_t R) 100 → in_range (common_type int8_t R) 7 →
      in_range (common_type int8_t R) (100 `quot` 7) →
      in_range int8_t (100 `quot` 7) →
      operator_mod_assign int8_t R (mk_int_np 100) 7
      = Some (mk_int_np (100 `quot` 7))) ∧
   operator_mod_assign_np int8_t (mk_int_np 100) (mk_int_np 7)
     = operator_div_assign_np int8_t (mk_int_np 100) (mk_int_np 7) ∧
   (∀ R : integral,
      operator_mod_assign int8_t R (mk_int_np 100) 7
      = operator_div_assign int8_t R (mk_int_np 100) 7)).
Proof.
  split; [by vm_compute|]. split; [by vm_compute|]. split; [lia|].
  apply (mod_assign_stores_quotient int8_t); [by vm_compute | by vm_compute | lia].
Defined.

(** ** The further properties at concrete inputs *)

Lemma int_not_equal_lawful (a b : Z) : not_equal a b = false ↔ a = b.
Proof.
  unfold not_equal, int_not_equal. rewrite negb_false_iff. apply Z.eqb_eq.
Qed.

(** [emplace_back(7)] on a capacity-3 container of [std::any] holding one
    element. *)
Lemma emplace_back_spec_witness :
  let s : simple_stack_vector any :=
    mk_stack_vector [any_int 10; any_empty; any_empty] 1 in
  0 ≤ 3 < 2 ^ 64 ∧ well_typed 64 3 s ∧
  ((size_ s = 3 →
      ∃ e, emplace_back 64 3 7 s = Throws e s ∧ CapacityExceeded e) ∧
   (size_ s < 3 →
      ∃ s', emplace_back 64 3 7 s = Returns (size_ s) s' ∧
        size_ s' = size_ s + 1 ∧
        slot (data_ s') (size_ s) = Some (construct 7) ∧
        live s' = live s ++ [construct 7])).
Proof.
  intros s. split; [lia|]. split; [by vm_compute|].
  apply (emplace_back_spec 64 3); [lia | by vm_compute].
Defined.

(** Reverse iteration over 10, 20 in a capacity-3 container. *)
Lemma iterate_reverse_live_witness :
  let s : simple_stack_vector Z := mk_stack_vector [10; 20; 0] 2 in
  0 ≤ 3 < 2 ^ 64 ∧ well_typed 64 3 s ∧ I1 3 s ∧ 3 < 2 ^ (64 - 1) ∧
  (iterate_reverse 64 3 s = Some (reverse (live s)) ∧
   iterate_reverse 64 3 s = reverse <$> iterate 64 s).
Proof.
  intros s. split; [lia|]. split; [by vm_compute|]. split; [by vm_compute|].
  split; [lia|].
  apply (iterate_reverse_live 64 3); [lia | by vm_compute | by vm_compute | lia].
Defined.

(** [push_back(30)] then [pop_back] on a container holding 10, 20. *)
Lemma push_back_pop_back_witness :
  let s : simple_stack_vector Z := mk_stack_vector [10; 20; 0] 2 in
  0 ≤ 3 < 2 ^ 64 ∧ well_typed 64 3 s ∧ size_ s < 3 ∧
  ∃ s1 s2,
    push_back 64 3 30 s = Returns (size_ s) s1 ∧
    pop_back 64 s1 = Returns () s2 ∧
    size_ s2 = size_ s ∧
    live s2 = live s ∧
    slot (data_ s2) (size_ s) = Some 30.
Proof.
  intros s. split; [lia|]. split; [by vm_compute|]. split; [by vm_compute|].
  apply (push_back_pop_back 64 3); [lia | by vm_compute | by vm_compute].
Defined.

(** [pop_back] on a container holding 10, 20. *)
Lemma pop_back_live_witness :
  let s : simple_stack_vector Z := mk_stack_vector [10; 20; 0] 2 in
  well_typed 64 3 s ∧ I1 3 s ∧ 0 < size_ s ∧
  ∃ s' v,
    pop_back 64 s = Returns () s' ∧
    data_ s' = data_ s ∧
    slot (data_ s) (size_ s - 1) = Some v ∧
    live s = live s' ++ [v].
Proof.
  intros s. split; [by vm_compute|]. split; [by vm_compute|].
  split; [by vm_compute|].
  apply (pop_back_live 64 3); by vm_compute.
Defined.

(** Four values for a capacity-3 container. *)
Lemma from_values_overflow_witness :
  0 ≤ 3 < 2 ^ 64 ∧ 3 < Z.of_nat (length [10; 20; 30; 40]) ∧
  ∃ e s', from_values 64 3 [10; 20; 30; 40] = Throws e s' ∧
    CapacityExceeded e ∧
    size s' = 3 ∧
    live s' = take (Z.to_nat 3) [10; 20; 30; 40].
Proof.
  split; [lia|]. split; [by vm_compute|].
  apply (from_values_overflow 64 3); [lia | by vm_compute].
Defined.

(** [clear] on a full capacity-3 container, then two pushes. *)
Lemma clear_then_push_witness :
  let s : simple_stack_vector Z := mk_stack_vector [10; 20; 30] 3 in
  0 ≤ 3 < 2 ^ 64 ∧ 3 < 2 ^ (64 - 1) ∧ well_typed 64 3 s ∧
  Z.of_nat (length [7; 8]) ≤ 3 ∧
  ∃ s0 s',
    clear s = Returns () s0 ∧
    empty s0 = true ∧
    iterate 64 s0 = Some [] ∧
    push_all 64 3 [7; 8] s0 = Returns () s' ∧
    size s' = Z.of_nat (length [7; 8]) ∧
    iterate 64 s' = Some [7; 8].
Proof.
  intros s. split; [lia|]. split; [lia|]. split; [by vm_compute|].
  split; [by vm_compute|].
  apply (clear_then_push 64 3); [lia | lia | by vm_compute | by vm_compute].
Defined.

(** [operator[]] at the stale index 2 of a container holding 10, 20. *)
Lemma operator_index_unchecked_witness :
  let s : simple_stack_vector Z := mk_stack_vector [10; 20; 0] 2 in
  well_typed 64 3 s ∧ I1 3 s ∧ 0 ≤ 2 ∧
  ((2 < size s → operator_index 2 s = at_ 2 s) ∧
   (size s ≤ 2 < 3 →
      operator_index 2 s = Returns 2 s ∧
      ∃ e, at_ 2 s = Throws e s ∧ OutOfRange e) ∧
   (3 ≤ 2 → operator_index 2 s = Undefined)).
Proof.
  intros s. split; [by vm_compute|]. split; [by vm_compute|]. split; [lia|].
  apply (operator_index_unchecked 64 3); [by vm_compute | by vm_compute | lia].
Defined.

(** [push_back(30)] on a container holding 10, 20, then [at]. *)
Lemma push_back_then_at_witness :
  let s : simple_stack_vector Z := mk_stack_vector [10; 20; 0] 2 in
  0 ≤ 3 < 2 ^ 64 ∧ well_typed 64 3 s ∧ I1 3 s ∧ size_ s < 3 ∧
  ∃ r s',
    push_back 64 3 30 s = Returns r s' ∧
    at_ r s' = Returns r s' ∧
    slot (data_ s') r = Some 30 ∧
    ∀ idx, 0 ≤ idx < size s →
      at_ idx s' = Returns idx s' ∧ slot (data_ s') idx = slot (data_ s) idx.
Proof.
  intros s. split; [lia|]. split; [by vm_compute|]. split; [by vm_compute|].
  split; [by vm_compute|].
  apply (push_back_then_at 64 3);
    [lia | by vm_compute | by vm_compute | by vm_compute].
Defined.

(** [front] and [back] on a full capacity-3 container. *)
Lemma front_back_of_iteration_witness :
  let s : simple_stack_vector Z := mk_stack_vector [10; 20; 30] 3 in
  3 < 2 ^ (64 - 1) ∧ well_typed 64 3 s ∧ I1 3 s ∧ 0 < size_ s ∧
  ((∃ r v, front s = Returns r s ∧ slot (data_ s) r = Some v ∧
      head <$> iterate 64 s = Some (Some v)) ∧
   (size_ s = 3 →
      ∃ r v, back s = Returns r s ∧ slot (data_ s) r = Some v ∧
        last <$> iterate 64 s = Some (Some v))).
Proof.
  intros s. split; [lia|]. split; [by vm_compute|]. split; [by vm_compute|].
  split; [by vm_compute|].
  apply (front_back_of_iteration 64 3);
    [lia | by vm_compute | by vm_compute | by vm_compute].
Defined.

(** [resize(1)] on a capacity-4 container of [std::any] holding two
    elements. *)
Lemma resize_spec_witness :
  let s : simple_stack_vector any :=
    mk_stack_vector [any_int 10; any_int 20; any_empty; any_empty] 2 in
  0 ≤ 4 < 2 ^ 64 ∧ 4 < 2 ^ (64 - 1) ∧ well_typed 64 4 s ∧ I1 4 s ∧ 0 ≤ 1 ∧
  ((1 ≤ size s →
      ∃ s', resize 64 4 1 s = Returns () s' ∧
        data_ s' = data_ s ∧ size s' = 1 ∧
        live s' = take (Z.to_nat 1) (live s)) ∧
   (4 < 1 →
      ∃ e, resize 64 4 1 s = Throws e s ∧ CapacityExceeded e) ∧
   (size s < 1 ≤ 4 →
      ∃ s', resize 64 4 1 s = Returns () s' ∧
        size s' = 1 ∧
        length (data_ s') = length (data_ s) ∧
        take (Z.to_nat (size s)) (live s') = live s)).
Proof.
  intros s. split; [lia|]. split; [lia|]. split; [by vm_compute|].
  split; [by vm_compute|]. split; [lia|].
  apply (resize_spec 64 4); [lia | lia | by vm_compute | by vm_compute | lia].
Defined.

(** 1, 2, 3 in capacity 5 against 1, 2, 4 in capacity 8. *)
Lemma operator_eq_live_witness :
  let lhs : simple_stack_vector Z := mk_stack_vector [1; 2; 3; 0; 0] 3 in
  let rhs : simple_stack_vector Z := mk_stack_vector [1; 2; 4; 0; 0; 0; 0; 0] 3 in
  (∀ a b : Z, not_equal a b = false ↔ a = b) ∧
  well_typed 64 5 lhs ∧ I1 5 lhs ∧ well_typed 64 8 rhs ∧ I1 8 rhs ∧
  ∃ b, operator_eq lhs rhs = Some b ∧ (b = true ↔ live lhs = live rhs).
Proof.
  intros lhs rhs. split; [exact int_not_equal_lawful|].
  split; [by vm_compute|]. split; [by vm_compute|].
  split; [by vm_compute|]. split; [by vm_compute|].
  apply (operator_eq_live 64 int_not_equal_lawful 5 8); by vm_compute.
Defined.

(** A capacity-8 container of [int] holding 1, 2 converted to a
    capacity-3 container of [std::any]. *)
Lemma from_stack_vector_spec_witness :
  let other : simple_stack_vector Z :=
    mk_stack_vector [1; 2; 0; 0; 0; 0; 0; 0] 2 in
  0 ≤ 3 < 2 ^ 64 ∧ 3 < 2 ^ (64 - 1) ∧ 8 < 2 ^ (64 - 1) ∧
  well_typed 64 8 other ∧ I1 8 other ∧
  ((size other ≤ 3 →
      ∃ s' : simple_stack_vector any,
        from_stack_vector 64 3 other = Returns () s' ∧
        size s' = size other ∧
        iterate 64 s' = fmap (M := list) construct <$> iterate 64 other) ∧
   (3 < size other →
      ∃ e (s' : simple_stack_vector any),
        from_stack_vector 64 3 other = Throws e s' ∧ CapacityExceeded e)).
Proof.
  intros other. split; [lia|]. split; [lia|]. split; [lia|].
  split; [by vm_compute|]. split; [by vm_compute|].
  apply (from_stack_vector_spec 64 8 3);
    [lia | lia | lia | by vm_compute | by vm_compute].
Defined.

(** A capacity-8 container of [int] holding 1, 2 converted to capacity 3. *)
Lemma from_stack_vector_equal_witness :
  let other : simple_stack_vector Z :=
    mk_stack_vector [1; 2; 0; 0; 0; 0; 0; 0] 2 in
  0 ≤ 3 < 2 ^ 64 ∧ 3 < 2 ^ (64 - 1) ∧ 8 < 2 ^ (64 - 1) ∧
  (∀ v : Z, construct v = v) ∧
  (∀ a b : Z, not_equal a b = false ↔ a = b) ∧
  well_typed 64 8 other ∧ I1 8 other ∧ size other ≤ 3 ∧
  ∃ s' : simple_stack_vector Z,
    from_stack_vector 64 3 other = Returns () s' ∧
    operator_eq other s' = Some true ∧
    operator_eq s' other = Some true.
Proof.
  intros other. split; [lia|]. split; [lia|]. split; [lia|].
  split; [reflexivity|]. split; [exact int_not_equal_lawful|].
  split; [by vm_compute|]. split; [by vm_compute|]. split; [by vm_compute|].
  apply (from_stack_vector_equal 64 8 3);
    [lia | lia | lia | reflexivity | exact int_not_equal_lawful
    | by vm_compute | by vm_compute | by vm_compute].
Defined.

(** [uint_np8_t::from(300)]. *)
Lemma from_get_witness :
  0 < bits uint8_t ∧
  (in_range uint8_t (get uint8_t (from uint8_t 300)) ∧
   (get uint8_t (from uint8_t 300) - 300) `mod` 2 ^ bits uint8_t = 0 ∧
   (in_range uint8_t 300 → from uint8_t 300 = mk_int_np 300) ∧
   from uint8_t (get uint8_t (from uint8_t 300)) = from uint8_t 300).
Proof.
  split; [by vm_compute|]. apply (from_get uint8_t). by vm_compute.
Defined.

(** -7 by 2 in [int_np<std::int32_t>]. *)
Lemma div_mod_identity_witness :
  0 < bits int32_t ∧ in_range int32_t (-7) ∧ in_range int32_t 2 ∧ 2 ≠ 0 ∧
  ¬ (is_signed int32_t = true ∧ -7 = min_value int32_t ∧ 2 = -1) ∧
  ∃ q r,
    operator_div int32_t (mk_int_np (-7)) (mk_int_np 2) = Some (mk_int_np q) ∧
    operator_mod int32_t (mk_int_np (-7)) (mk_int_np 2) = Some (mk_int_np r) ∧
    q * 2 + r = -7 ∧
    Z.abs r < Z.abs 2 ∧
    0 ≤ r * -7.
Proof.
  split; [by vm_compute|]. split; [by vm_compute|]. split; [by vm_compute|].
  split; [lia|]. split; [intros (_ & _ & ?); lia|].
  apply (div_mod_identity int32_t);
    [by vm_compute | by vm_compute | by vm_compute | lia
    | intros (_ & _ & ?); lia].
Defined.

(** The least [int32_t] by -1. *)
Lemma division_undefined_iff_witness :
  0 < bits int32_t ∧ in_range int32_t (-2147483648) ∧ in_range int32_t (-1) ∧
  ((operator_div int32_t (mk_int_np (-2147483648)) (mk_int_np (-1)) = None ↔
    -1 = 0 ∨
    (is_signed int32_t = true ∧ bits int_ ≤ bits int32_t ∧
     -2147483648 = min_value int32_t ∧ -1 = -1)) ∧
   (operator_mod int32_t (mk_int_np (-2147483648)) (mk_int_np (-1)) = None ↔
    -1 = 0 ∨
    (is_signed int32_t = true ∧ bits int_ ≤ bits int32_t ∧
     -2147483648 = min_value int32_t ∧ -1 = -1))).
Proof.
  split; [by vm_compute|]. split; [by vm_compute|]. split; [by vm_compute|].
  apply (division_undefined_iff int32_t); by vm_compute.
Defined.

(** 200 + 100 in [int_np<std::uint8_t>]. *)
Lemma add_sub_spec_witness :
  0 < bits uint8_t ∧ in_range uint8_t 200 ∧ in_range uint8_t 100 ∧
  ((((is_signed uint8_t = false ∧ bits int_ ≤ bits uint8_t)
     ∨ bits uint8_t < bits int_ - 1) →
    operator_add uint8_t (mk_int_np 200) (mk_int_np 100)
      = Some (from uint8_t (200 + 100)) ∧
    operator_sub uint8_t (mk_int_np 200) (mk_int_np 100)
      = Some (from uint8_t (200 - 100))) ∧
   (is_signed uint8_t = true → bits int_ ≤ bits uint8_t →
    operator_add uint8_t (mk_int_np 200) (mk_int_np 100)
    = (if representable uint8_t (200 + 100)
       then Some (mk_int_np (200 + 100)) else None) ∧
    operator_sub uint8_t (mk_int_np 200) (mk_int_np 100)
    = (if representable uint8_t (200 - 100)
       then Some (mk_int_np (200 - 100)) else None))).
Proof.
  split; [by vm_compute|]. split; [by vm_compute|]. split; [by vm_compute|].
  apply (add_sub_spec uint8_t); by vm_compute.
Defined.

(** 65535 * 65535 in [int_np<std::uint16_t>]. *)
Lemma mul_narrow_spec_witness :
  0 < bits uint16_t ∧ in_range uint16_t 65535 ∧ in_range uint16_t 65535 ∧
  bits uint16_t < bits int_ ∧
  (operator_mul uint16_t (mk_int_np 65535) (mk_int_np 65535)
   = (if representable int_ (65535 * 65535)
      then Some (from uint16_t (65535 * 65535)) else None) ∧
   (2 * bits uint16_t < bits int_ → in_range int_ (65535 * 65535))).
Proof.
  split; [by vm_compute|]. split; [by vm_compute|]. split; [by vm_compute|].
  split; [by vm_compute|].
  apply (mul_narrow_spec uint16_t); by vm_compute.
Defined.

(** [++x] at 127 in [int_np<std::int8_t>]. *)
Lemma increment_decrement_spec_witness :
  0 < bits int8_t ∧ in_range int8_t 127 ∧
  (bits int8_t < bits int_ - 1 ∨ bits int_ ≤ bits int8_t) ∧
  (((127 < max_value int8_t →
      pre_increment int8_t (mk_int_np 127) = Some (mk_int_np (127 + 1))) ∧
   (min_value int8_t < 127 →
      pre_decrement int8_t (mk_int_np 127) = Some (mk_int_np (127 - 1))) ∧
   (127 = max_value int8_t →
      pre_increment int8_t (mk_int_np 127)
      = if is_signed int8_t && (bits int_ <=? bits int8_t) then None
        else Some (mk_int_np (min_value int8_t))) ∧
   (127 = min_value int8_t →
      pre_decrement int8_t (mk_int_np 127)
      = if is_signed int8_t && (bits int_ <=? bits int8_t) then None
        else Some (mk_int_np (max_value int8_t)))) ∧
   post_increment int8_t (mk_int_np 127)
     = pair (mk_int_np 127) <$> pre_increment int8_t (mk_int_np 127) ∧
   post_decrement int8_t (mk_int_np 127)
     = pair (mk_int_np 127) <$> pre_decrement int8_t (mk_int_np 127)).
Proof.
  split; [by vm_compute|]. split; [by vm_compute|].
  split; [left; by vm_compute|].
  apply (increment_decrement_spec int8_t);
    [by vm_compute | by vm_compute | left; by vm_compute].
Defined.

(** [~x] at 5 in [int_np<std::uint8_t>]. *)
Lemma operator_not_spec_witness :
  0 < bits uint8_t ∧ in_range uint8_t 5 ∧
  (operator_not uint8_t (mk_int_np 5)
   = mk_int_np (min_value uint8_t + max_value uint8_t - 5) ∧
   operator_not uint8_t (operator_not uint8_t (mk_int_np 5)) = mk_int_np 5).
Proof.
  split; [by vm_compute|]. split; [by vm_compute|].
  apply (operator_not_spec uint8_t); by vm_compute.
Defined.

(** [x << 8] at 1 in [int_np<std::uint8_t>]. *)
Lemma shift_spec_witness :
  0 < bits uint8_t ∧ in_range uint8_t 1 ∧
  ((0 ≤ 8 < bits (promote uint8_t) →
      operator_shl uint8_t (mk_int_np 1) 8 = Some (from uint8_t (1 * 2 ^ 8)) ∧
      operator_shr uint8_t (mk_int_np 1) 8 = Some (mk_int_np (1 `div` 2 ^ 8))) ∧
   (8 < 0 ∨ bits (promote uint8_t) ≤ 8 →
      operator_shl uint8_t (mk_int_np 1) 8 = None ∧
      operator_shr uint8_t (mk_int_np 1) 8 = None)).
Proof.
  split; [by vm_compute|]. split; [by vm_compute|].
  apply (shift_spec uint8_t); by vm_compute.
Defined.

(** [x | y], [x & y], [x ^ y] at -4 and 5 in [int_np<std::int8_t>]. *)
Lemma bitwise_spec_witness :
  0 < bits int8_t ∧ in_range int8_t (-4) ∧ in_range int8_t 5 ∧
  ((operator_or int8_t (mk_int_np (-4)) (mk_int_np 5)
      = mk_int_np (Z.lor (-4) 5) ∧
    operator_and int8_t (mk_int_np (-4)) (mk_int_np 5)
      = mk_int_np (Z.land (-4) 5) ∧
    operator_xor int8_t (mk_int_np (-4)) (mk_int_np 5)
      = mk_int_np (Z.lxor (-4) 5)) ∧
   (in_range int8_t (Z.lor (-4) 5) ∧ in_range int8_t (Z.land (-4) 5) ∧
    in_range int8_t (Z.lxor (-4) 5)) ∧
   (operator_or_assign int8_t (mk_int_np (-4)) (mk_int_np 5)
      = operator_or int8_t (mk_int_np (-4)) (mk_int_np 5) ∧
    operator_and_assign int8_t (mk_int_np (-4)) (mk_int_np 5)
      = operator_and int8_t (mk_int_np (-4)) (mk_int_np 5) ∧
    operator_xor_assign int8_t (mk_int_np (-4)) (mk_int_np 5)
      = operator_xor int8_t (mk_int_np (-4)) (mk_int_np 5))).
Proof.
  split; [by vm_compute|]. split; [by vm_compute|]. split; [by vm_compute|].
  apply (bitwise_spec int8_t); by vm_compute.
Defined.
